(** * tinyproxy: the reverse-path rewrite engine and the socket layer

    A shallow embedding of [src/reverse-proxy.c] and [src/sock.c].

    C strings are modelled by [string] (the bytes before the terminating
    NUL); a [char *] that may be NULL by [option string]; the singly linked
    [struct reversepath] list by a [list] whose head is
    [config.reversepath_list].  The global [config] and the log are threaded
    explicitly.  Undefined behaviour of the C program (a dereference of a
    null or indeterminate pointer, a read or write outside a buffer) is an
    outcome of its own, never a value. *)

From Stdlib Require Import String Ascii List ZArith Bool Lia DecimalString.
Import ListNotations.

Local Open Scope string_scope.
Local Open Scope list_scope.

(** ** C strings *)

Module CStr.

(** [*s]: the first byte of a C string, the terminator for the empty one. *)
Definition deref (s : string) : ascii :=
  match s with
  | EmptyString => zero
  | String c _ => c
  end.

(** [s + n] for [n <= strlen (s)]; outside the string the pointer does not
    designate a C string any more. *)
Fixpoint offset (s : string) (n : nat) {struct n} : option string :=
  match n, s with
  | O, _ => Some s
  | S _, EmptyString => None
  | S n', String _ s' => offset s' n'
  end.

(** [strncmp (s, p, strlen (p)) == 0]: the bytes of [p] are the first bytes
    of [s]. *)
Fixpoint starts_with (s p : string) : bool :=
  match p, s with
  | EmptyString, _ => true
  | String _ _, EmptyString => false
  | String a p', String b s' => Ascii.eqb a b && starts_with s' p'
  end.

(** [strstr (haystack, needle)]: the offset of the first occurrence of
    [needle] in [haystack], [None] for the NULL result.  An empty needle is
    found at offset 0. *)
Fixpoint strstr (haystack needle : string) : option nat :=
  if starts_with haystack needle then Some O
  else match haystack with
       | EmptyString => None
       | String _ rest => option_map S (strstr rest needle)
       end.

(** [tolower] on the ASCII letters, and its extension to strings, as used
    by a case-insensitive comparison. *)
Definition tolower (c : ascii) : ascii :=
  let n := nat_of_ascii c in
  if (65 <=? n)%nat && (n <=? 90)%nat then ascii_of_nat (n + 32) else c.

Fixpoint lower (s : string) : string :=
  match s with
  | EmptyString => EmptyString
  | String c s' => String (tolower c) (lower s')
  end.

Definition strcasecmp_eq (a b : string) : bool :=
  String.eqb (lower a) (lower b).

(** [strlcpy (dst, src, size)]: at most [size - 1] bytes are copied. *)
Fixpoint take (n : nat) (s : string) : string :=
  match n, s with
  | S n', String c s' => String c (take n' s')
  | _, _ => EmptyString
  end.

Definition strlcpy (src : string) (size : nat) : string :=
  take (Nat.pred size) src.

End CStr.

(** ** Outcomes of a C function *)

Inductive outcome (A : Type) : Type :=
| Returns (a : A)
| Undefined.
Arguments Returns {A} a.
Arguments Undefined {A}.

Definition obind {A B} (m : outcome A) (k : A -> outcome B) : outcome B :=
  match m with
  | Returns a => k a
  | Undefined => Undefined
  end.

Notation "x <~ m ;; k" := (obind m (fun x => k))
  (at level 61, m at next level, right associativity).

(** ** The log *)

Inductive log_level := LOG_ERR | LOG_WARNING | LOG_INFO | LOG_CONN.

(** One call of [log_message]: the level, the format and the arguments of its
    [%s] directives; a NULL argument is [None]. *)
Record log_entry := LogEntry {
  log_lvl : log_level;
  log_fmt : string;
  log_args : list (option string)
}.

Definition log := list log_entry.

Definition log_message (lvl : log_level) (fmt : string)
    (args : list (option string)) (l : log) : log :=
  l ++ [LogEntry lvl fmt args].

(** ** The configuration and the connection *)

(** [struct reversepath]; the [next] field is the tail of the list. *)
Record reversepath := ReversePath {
  path : string;
  url : string
}.

Record config_s := Config {
  reversepath_list : list reversepath;
  reversemagic : bool;
  reverseonly : bool;
  bind_address : option string
}.

Definition set_reversepath_list (l : list reversepath) (c : config_s) :=
  Config l (reversemagic c) (reverseonly c) (bind_address c).

(** Modelled from the spec: [indicate_http_error] is not among the sources;
    it is "a structured error invocation carrying HTTP status 400, a
    human-readable title, and key/value detail fields". *)
Record http_error := HttpError {
  error_number : Z;
  error_string : string;
  error_variables : list (string * string)
}.

(** The fields of [struct conn_s] the rewrite engine touches. *)
Record conn_s := Conn {
  reversepath_field : option string;
  error_field : option http_error
}.

Definition indicate_http_error (c : conn_s) (n : Z) (msg : string)
    (vars : list (string * string)) : conn_s :=
  Conn (reversepath_field c) (Some (HttpError n msg vars)).

Definition set_conn_reversepath (c : conn_s) (p : string) : conn_s :=
  Conn (Some p) (error_field c).

(** Modelled from the spec: the header map ([hashmap_t], not among the
    sources) is a "case-insensitive mapping from header name to raw header
    value"; [hashmap_entry_by_key] gives the value when the key is present
    (the C function then returns a positive length). *)
Definition hashmap_t := list (string * string).

Fixpoint hashmap_entry_by_key (m : hashmap_t) (key : string) : option string :=
  match m with
  | [] => None
  | (k, v) :: m' =>
      if CStr.strcasecmp_eq k key then Some v else hashmap_entry_by_key m' key
  end.

(** ** reverse-proxy.c *)

Definition slash : ascii := "/"%char.

(** [reversepath_add].  [heap] is the outcome of the one allocation the
    function checks, [safemalloc (sizeof (struct reversepath))]; the
    [safestrdup] calls are not checked by the source and are taken to
    succeed.  The arguments [path] and [url] are written [path_] and
    [url_], the plain names being the fields of [struct reversepath]. *)
Definition reversepath_add (heap : bool) (path_ url_ : option string)
    (st : config_s * log) : config_s * log :=
  let (config, l) := st in
  match url_ with
  | None =>
      (config,
       log_message LOG_WARNING "Illegal reverse proxy rule: missing url" [] l)
  | Some u =>
      match CStr.strstr u "://" with
      | None =>
          (config,
           log_message LOG_WARNING
             "Skipping reverse proxy rule: '%s' is not a valid url"
             [Some u] l)
      | Some _ =>
          if match path_ with
             | Some p => negb (Ascii.eqb (CStr.deref p) slash)
             | None => false
             end
          then
            (config,
             log_message LOG_WARNING
               "Skipping reverse proxy rule: path '%s' doesn't start with a /"
               [path_] l)
          else if negb heap then
            (config,
             log_message LOG_ERR
               "Unable to allocate memory in reversepath_add()" [] l)
          else
            let reverse :=
              ReversePath (match path_ with None => "/" | Some p => p end) u in
            (set_reversepath_list (reverse :: reversepath_list config) config,
             log_message LOG_INFO "Added reverse proxy rule: %s -> %s"
               [Some (path reverse); Some (url reverse)] l)
      end
  end.

(** [reversepath_get]: the walk over the list from [config.reversepath_list];
    the test [strstr (url, reverse->path) == url] asks for an occurrence at
    offset 0. *)
Fixpoint reversepath_get (reverse : list reversepath) (url_ : string)
    : option reversepath :=
  match reverse with
  | [] => None
  | r :: next =>
      match CStr.strstr url_ (path r) with
      | Some O => Some r
      | _ => reversepath_get next url_
      end
  end.

(** A local pointer variable: not yet assigned, NULL, or pointing to an
    object. *)
Inductive pointer (A : Type) : Type :=
| Indeterminate
| NULL
| Ref (a : A).
Arguments Indeterminate {A}.
Arguments NULL {A}.
Arguments Ref {A} a.

(** [p->field]: defined only for a pointer to an object. *)
Definition arrow {A B} (p : pointer A) (field : A -> B) : outcome B :=
  match p with
  | Ref a => Returns (field a)
  | _ => Undefined
  end.

(** [strcpy] and [strcat] into a buffer of [size] bytes: the result with its
    terminator has to fit. *)
Definition strcpy (size : nat) (src : string) : outcome string :=
  if (String.length src + 1 <=? size)%nat then Returns src else Undefined.

Definition strcat (size : nat) (dst src : string) : outcome string :=
  if (String.length dst + String.length src + 1 <=? size)%nat
  then Returns (dst ++ src)%string else Undefined.

Definition at_offset (s : string) (n : nat) : outcome string :=
  match CStr.offset s n with
  | Some t => Returns t
  | None => Undefined
  end.

Definition is_null {A} (o : option A) : bool :=
  match o with
  | Some _ => false
  | None => true
  end.

Section Rewrite.

(** The macro [REVERSE_COOKIE] of [reverse-proxy.h], the name of the
    tracking cookie. *)
Variable REVERSE_COOKIE : string.

(** The first half of [reverse_rewrite_url] (lines 105-138): the values of
    [rewrite_url] and [reverse] and the log when the statement guarded by
    the test of the first byte of [url] is left. *)
Definition locate_mapping (config : config_s) (hashofheaders : hashmap_t)
    (url_ : string) (l : log)
    : outcome (option string * pointer reversepath * log) :=
  if Ascii.eqb (CStr.deref url_) slash then
    match reversepath_get (reversepath_list config) url_ with
    | Some reverse =>
        let size := (String.length url_ + String.length (url reverse) + 1)%nat in
        buf <~ strcpy size (url reverse) ;;
        rest <~ at_offset url_ (String.length (path reverse)) ;;
        rewrite_url <~ strcat size buf rest ;;
        Returns (Some rewrite_url, Ref reverse, l)
    | None =>
        if reversemagic config then
          match hashmap_entry_by_key hashofheaders "cookie" with
          | Some cookie =>
              match CStr.strstr cookie (REVERSE_COOKIE ++ "=")%string with
              | Some cookieval =>
                  value <~ at_offset cookie
                    (cookieval + String.length REVERSE_COOKIE + 1) ;;
                  match reversepath_get (reversepath_list config) value with
                  | Some reverse =>
                      let size :=
                        (String.length url_ + String.length (url reverse) + 1)%nat in
                      buf <~ strcpy size (url reverse) ;;
                      rest <~ at_offset url_ 1 ;;
                      rewrite_url <~ strcat size buf rest ;;
                      Returns (Some rewrite_url, Ref reverse,
                               log_message LOG_INFO
                                 "Magical tracking cookie says: %s"
                                 [Some (path reverse)] l)
                  | None => Returns (None, NULL, l)
                  end
              | None => Returns (None, NULL, l)
              end
          | None => Returns (None, NULL, l)
          end
        else Returns (None, NULL, l)
    end
  else Returns (None, Indeterminate, l).

(** [reverse_rewrite_url]: the returned pointer ([None] for NULL), the
    connection and the log. *)
Definition reverse_rewrite_url (config : config_s) (connptr : conn_s)
    (hashofheaders : hashmap_t) (url_ : string) (l : log)
    : outcome (option string * conn_s * log) :=
  found <~ locate_mapping config hashofheaders url_ l ;;
  let '(rewrite_url, reverse, l1) := found in
  if reverseonly config && is_null rewrite_url then
    let l2 := log_message LOG_ERR "Bad request" [] l1 in
    Returns (None,
             indicate_http_error connptr 400 "Bad Request"
               [("detail", "Request has an invalid URL"); ("url", url_)],
             l2)
  else
    let l2 :=
      log_message LOG_CONN "Rewriting URL: %s -> %s"
        [Some url_; rewrite_url] l1 in
    if reversemagic config then
      reverse_path <~ arrow reverse path ;;
      Returns (rewrite_url, set_conn_reversepath connptr reverse_path, l2)
    else Returns (rewrite_url, connptr, l2).

End Rewrite.

(** ** sock.c *)

(** [struct sockaddr] with its length, as the bytes the kernel sees. *)
Definition sockaddr := string.

Record addrinfo := AddrInfo {
  ai_family : Z;
  ai_socktype : Z;
  ai_protocol : Z;
  ai_addr : sockaddr
}.

Definition AF_UNSPEC : Z := 0.
Definition SOCK_STREAM : Z := 1.

(** The hints both resolutions pass: zeroed, then the family and the socket
    type set. *)
Definition stream_hints : addrinfo := AddrInfo AF_UNSPEC SOCK_STREAM 0 "".

(** The system and library calls of [sock.c], over a state [W] of the world
    outside the process.  [getaddrinfo] gives [None] for a non-zero return
    and the non-empty result list otherwise; [getpeername] gives [None] for a
    non-zero return; [get_ip_string] (of [network.c]) gives [None] for NULL;
    [getnameinfo] gives its return value and the host name.  A call that
    fails leaves the caller's buffer as it was: the host name reaches
    [string_addr] only when the return value is 0.  The lists are freed by
    [freeaddrinfo], which the model has no need for. *)
Class Kernel (W : Type) := {
  getaddrinfo :
    string -> option string -> addrinfo -> W -> option (addrinfo * list addrinfo) * W;
  socket : Z -> Z -> Z -> W -> Z * W;
  bind : Z -> sockaddr -> W -> Z * W;
  connect : Z -> sockaddr -> W -> Z * W;
  close : Z -> W -> Z * W;
  getpeername : Z -> W -> option sockaddr * W;
  get_ip_string : sockaddr -> nat -> option string;
  getnameinfo : sockaddr -> nat -> W -> (Z * string) * W
}.

(** A run either finishes with a value and a state or stops at a failed
    [assert]. *)
Inductive result (S A : Type) : Type :=
| Done (a : A) (s : S)
| Abort.
Arguments Done {S A} a s.
Arguments Abort {S A}.

Section Sock.

Context {W : Type} {K : Kernel W}.

(** The macros [IP_LENGTH] and [HOSTNAME_LENGTH] of [common.h]. *)
Variable IP_LENGTH : nat.
Variable HOSTNAME_LENGTH : nat.

(** The state a call of [sock.c] works on: the world and the log. *)
Record proc := Proc {
  world : W;
  logged : log
}.

Definition M (A : Type) : Type := proc -> result proc A.

Definition ret {A} (a : A) : M A := fun s => Done a s.

Definition mbind {A B} (m : M A) (k : A -> M B) : M B :=
  fun s =>
    match m s with
    | Done a s' => k a s'
    | Abort => Abort
    end.

Definition assert (b : bool) : M unit :=
  fun s => if b then Done tt s else Abort.

Definition sys {A} (call : W -> A * W) : M A :=
  fun s => let (a, w) := call (world s) in Done a (Proc w (logged s)).

Definition log_msg (lvl : log_level) (fmt : string)
    (args : list (option string)) : M unit :=
  fun s => Done tt (Proc (world s) (log_message lvl fmt args (logged s))).

Notation "x <- m ; k" := (mbind m (fun x => k))
  (at level 61, m at next level, right associativity).
Notation "m ;; k" := (mbind m (fun _ => k))
  (at level 61, right associativity).

(** The [do ... while] of [bind_socket]: [res] at the exit of the loop,
    [None] for NULL. *)
Fixpoint bind_socket_loop (sockfd : Z) (res : addrinfo)
    (ai_next : list addrinfo) {struct ai_next} : M (option addrinfo) :=
  r <- sys (bind sockfd (ai_addr res)) ;
  if (r =? 0)%Z then ret (Some res)
  else match ai_next with
       | [] => ret None
       | res' :: ai_next' => bind_socket_loop sockfd res' ai_next'
       end.

(** [bind_socket]; [addr] is a string, and the assertion asks it not to be
    empty. *)
Definition bind_socket (sockfd : Z) (addr : string) : M Z :=
  assert (0 <=? sockfd)%Z ;;
  assert (negb (String.length addr =? 0)%nat) ;;
  r <- sys (getaddrinfo addr None stream_hints) ;
  match r with
  | None => ret (-1)%Z
  | Some (res, ai_next) =>
      res' <- bind_socket_loop sockfd res ai_next ;
      match res' with
      | None => ret (-1)%Z
      | Some _ => ret sockfd
      end
  end.

(** One pass through the body of the [do ... while] of [opensock]: [true]
    when it is left by [break], [false] when it reaches the loop condition
    (by [continue] or at its end), with the value of [sockfd]. *)
Definition opensock_body (config : config_s) (bind_to : option string)
    (res : addrinfo) : M (bool * Z) :=
  sockfd <- sys (socket (ai_family res) (ai_socktype res) (ai_protocol res)) ;
  if (sockfd <? 0)%Z then ret (false, sockfd)
  else
    bound <-
      match bind_to with
      | Some addr =>
          b <- bind_socket sockfd addr ;
          if (b <? 0)%Z then sys (close sockfd) ;; ret false else ret true
      | None =>
          match bind_address config with
          | Some addr =>
              b <- bind_socket sockfd addr ;
              if (b <? 0)%Z then sys (close sockfd) ;; ret false else ret true
          | None => ret true
          end
      end ;
    if negb bound then ret (false, sockfd)
    else
      c <- sys (connect sockfd (ai_addr res)) ;
      if (c =? 0)%Z then ret (true, sockfd)
      else sys (close sockfd) ;; ret (false, sockfd).

(** The loop itself: [res] ([None] for NULL) and [sockfd] at its exit. *)
Fixpoint opensock_loop (config : config_s) (bind_to : option string)
    (res : addrinfo) (ai_next : list addrinfo) {struct ai_next}
    : M (option addrinfo * Z) :=
  pass <- opensock_body config bind_to res ;
  let (left_by_break, sockfd) := pass in
  if left_by_break then ret (Some res, sockfd)
  else match ai_next with
       | [] => ret (None, sockfd)
       | res' :: ai_next' => opensock_loop config bind_to res' ai_next'
       end.

(** [snprintf (portstr, sizeof (portstr), "%d", port)] with
    [char portstr[6]]: the decimal digits, cut after five bytes. *)
Definition portstr (port : Z) : string :=
  CStr.take 5 (NilZero.string_of_int (Z.to_int port)).

(** [opensock]; [host] is a string, so [assert (host != NULL)] holds by its
    type. *)
Definition opensock (config : config_s) (host : string) (port : Z)
    (bind_to : option string) : M Z :=
  assert (0 <? port)%Z ;;
  n <- sys (getaddrinfo host (Some (portstr port)) stream_hints) ;
  match n with
  | None =>
      log_msg LOG_ERR "opensock: Could not retrieve info for %s" [Some host] ;;
      ret (-1)%Z
  | Some (res, ai_next) =>
      exit <- opensock_loop config bind_to res ai_next ;
      let (res', sockfd) := exit in
      match res' with
      | None =>
          log_msg LOG_ERR
            "opensock: Could not establish a connection to %s" [Some host] ;;
          ret (-1)%Z
      | Some _ => ret sockfd
      end
  end.

(** [getpeer_information]: the return value with the contents of the
    buffers [ipaddr] and [string_addr], which the caller provides (the two
    assertions on them hold). *)
Definition getpeer_information (fd : Z) : M (Z * string * string) :=
  assert (0 <=? fd)%Z ;;
  let ipaddr := "" in
  let string_addr := CStr.strlcpy "[unknown]" HOSTNAME_LENGTH in
  peer <- sys (getpeername fd) ;
  match peer with
  | None => ret ((-1)%Z, ipaddr, string_addr)
  | Some sa =>
      match get_ip_string sa IP_LENGTH with
      | None => ret ((-1)%Z, ipaddr, string_addr)
      | Some ip =>
          let ipaddr := ip in
          name <- sys (getnameinfo sa HOSTNAME_LENGTH) ;
          let (rc, host) := name in
          ret (rc, ipaddr, if (rc =? 0)%Z then host else string_addr)
      end
  end.

End Sock.

Arguments proc W : clear implicits.
Arguments Proc {W} world logged.
Arguments M W A : clear implicits.

(** ** A small simulated kernel

    A world in which the resolver knows some hosts, some remote endpoints
    accept connections and some local addresses can be bound; every call is
    recorded.  It gives the embedding something to run on. *)

Inductive syscall :=
| SysGetaddrinfo (node : string) (service : option string)
| SysSocket (family : Z)
| SysBind (fd : Z) (addr : sockaddr)
| SysConnect (fd : Z) (addr : sockaddr)
| SysClose (fd : Z)
| SysGetpeername (fd : Z)
| SysGetnameinfo (addr : sockaddr).

Record sim := Sim {
  sim_dns : list (string * list addrinfo);
  sim_families : list Z;
  sim_local : list sockaddr;
  sim_up : list sockaddr;
  sim_peers : list (Z * sockaddr);
  sim_names : list (sockaddr * string);
  sim_next : Z;
  sim_trace : list syscall
}.

Definition record (c : syscall) (w : sim) : sim :=
  Sim (sim_dns w) (sim_families w) (sim_local w) (sim_up w) (sim_peers w)
      (sim_names w) (sim_next w) (sim_trace w ++ [c]).

Definition next_descriptor (w : sim) : sim :=
  Sim (sim_dns w) (sim_families w) (sim_local w) (sim_up w) (sim_peers w)
      (sim_names w) (sim_next w + 1) (sim_trace w).

Fixpoint assoc {A} (key : string) (l : list (string * A)) : option A :=
  match l with
  | [] => None
  | (k, a) :: l' => if String.eqb k key then Some a else assoc key l'
  end.

Fixpoint assocZ {A} (key : Z) (l : list (Z * A)) : option A :=
  match l with
  | [] => None
  | (k, a) :: l' => if (k =? key)%Z then Some a else assocZ key l'
  end.

Definition known (a : string) (l : list string) : bool :=
  existsb (String.eqb a) l.

Definition EAI_NONAME : Z := -2.

#[export] Instance sim_kernel : Kernel sim := {
  getaddrinfo node service _ w :=
    (match assoc node (sim_dns w) with
     | Some (res :: ai_next) => Some (res, ai_next)
     | _ => None
     end, record (SysGetaddrinfo node service) w);
  socket family _ _ w :=
    if existsb (Z.eqb family) (sim_families w)
    then (sim_next w, next_descriptor (record (SysSocket family) w))
    else ((-1)%Z, record (SysSocket family) w);
  bind fd addr w :=
    (if known addr (sim_local w) then 0%Z else (-1)%Z, record (SysBind fd addr) w);
  connect fd addr w :=
    (if known addr (sim_up w) then 0%Z else (-1)%Z, record (SysConnect fd addr) w);
  close fd w := (0%Z, record (SysClose fd) w);
  getpeername fd w := (assocZ fd (sim_peers w), record (SysGetpeername fd) w);
  get_ip_string sa size :=
    if (String.length sa <? size)%nat && negb (String.length sa =? 0)%nat
    then Some sa else None;
  getnameinfo sa _ w :=
    (match assoc sa (sim_names w) with
     | Some name => (0%Z, name)
     | None => (EAI_NONAME, "")
     end, record (SysGetnameinfo sa) w)
}.

Definition AF_INET : Z := 2.
Definition AF_INET6 : Z := 10.

(** A host with two endpoints of which only the second accepts connections,
    a host with an endpoint of a family the kernel has no sockets for, one
    bindable local address, and a connected peer without a name. *)
Definition demo_world : sim :=
  Sim [("backend", [AddrInfo AF_INET SOCK_STREAM 6 "10.0.0.1";
                    AddrInfo AF_INET SOCK_STREAM 6 "10.0.0.2"]);
       ("six", [AddrInfo AF_INET6 SOCK_STREAM 6 "::2";
                AddrInfo AF_INET SOCK_STREAM 6 "10.0.0.2"]);
       ("192.168.0.9", [AddrInfo AF_INET SOCK_STREAM 0 "192.168.0.9"]);
       ("192.168.0.7", [AddrInfo AF_INET SOCK_STREAM 0 "192.168.0.7"])]
      [AF_INET]
      ["192.168.0.9"]
      ["10.0.0.2"]
      [(7%Z, "203.0.113.5"); (8%Z, "203.0.113.6")]
      [("203.0.113.6", "client.example.org")]
      3
      [].

Definition demo_proc : proc sim := Proc demo_world [].

Definition plain_config : config_s := Config [] false false None.

(** ** Vocabulary of the specification *)

(** [p] is a byte-wise prefix of [s]. *)
Definition is_prefix (p s : string) : Prop :=
  exists rest, s = (p ++ rest)%string.

(** [needle] occurs in [haystack] at offset [k]. *)
Definition occurs_at (needle haystack : string) (k : nat) : Prop :=
  exists pre post,
    haystack = (pre ++ needle ++ post)%string /\ String.length pre = k.

Definition contains (haystack needle : string) : Prop :=
  exists k, occurs_at needle haystack k.

Definition starts_with_slash (s : string) : Prop :=
  exists rest, s = String slash rest.

(** What the data model asks of a stored rule. *)
Definition valid_rule (r : reversepath) : Prop :=
  starts_with_slash (path r) /\ contains (url r) "://".

(** One call of [reversepath_add] and a sequence of them. *)
Record add_call := AddCall {
  add_heap : bool;
  add_path : option string;
  add_url : option string
}.

Definition run_adds (calls : list add_call) (st : config_s * log)
    : config_s * log :=
  fold_left
    (fun st c => reversepath_add (add_heap c) (add_path c) (add_url c) st)
    calls st.

(** The inputs the specification has [AddRule] turn down. *)
Definition turned_down (path_ url_ : option string) : Prop :=
  url_ = None \/
  (exists u, url_ = Some u /\ ~ contains u "://") \/
  (exists p, path_ = Some p /\ ~ starts_with_slash p).

(** The rules of the specification's examples. *)
Definition spec_table : list reversepath :=
  [ReversePath "/bar" "http://b2/"; ReversePath "/foo" "http://b/base"].

(** The request is handed on as it came: nothing rewritten, nothing recorded
    in the connection. *)
Definition passed_through (connptr : conn_s)
    (out : outcome (option string * conn_s * log)) : Prop :=
  exists l', out = Returns (None, connptr, l').

(** The request is refused: NULL is returned and the connection carries the
    400 error with the URL. *)
Definition rejected (connptr : conn_s) (u : string)
    (out : outcome (option string * conn_s * log)) : Prop :=
  exists l',
    out = Returns (None,
                   indicate_http_error connptr 400 "Bad Request"
                     [("detail", "Request has an invalid URL"); ("url", u)],
                   l').

(** The reading of the specification under which a request target that does
    not start with a slash is passed through whatever the flags are. *)
Definition absolute_uri_always_passed_through : Prop :=
  forall REVERSE_COOKIE config connptr headers u l,
    ~ starts_with_slash u ->
    passed_through connptr
      (reverse_rewrite_url REVERSE_COOKIE config connptr headers u l).

(** The address a call of [opensock] binds its sockets to, if any. *)
Definition chosen_bind (config : config_s) (bind_to : option string)
    : option string :=
  match bind_to with
  | Some addr => Some addr
  | None => bind_address config
  end.

Section Candidates.

Context {W : Type} {K : Kernel W}.

(** The socket [fd] is bound to [b] (or left alone when there is nothing to
    bind to), taking the state [s] to [s']. *)
Definition bound (b : option string) (fd : Z) (s s' : proc W) : Prop :=
  match b with
  | None => s' = s
  | Some addr => exists r, bind_socket fd addr s = Done r s' /\ (0 <= r)%Z
  end.

(** One candidate endpoint is tried, in the words of the specification: no
    socket, so the candidate is skipped; the bind fails, so the socket is
    closed; the connect fails, so the socket is closed; or the connect
    succeeds and the descriptor is the result. *)
Inductive attempt (b : option string) (c : addrinfo)
    : proc W -> proc W -> option Z -> Prop :=
| attempt_no_socket : forall s fd w,
    socket (ai_family c) (ai_socktype c) (ai_protocol c) (world s) = (fd, w) ->
    (fd < 0)%Z ->
    attempt b c s (Proc w (logged s)) None
| attempt_bind_failed : forall s fd w addr r s1 rc w2,
    socket (ai_family c) (ai_socktype c) (ai_protocol c) (world s) = (fd, w) ->
    (0 <= fd)%Z ->
    b = Some addr ->
    bind_socket fd addr (Proc w (logged s)) = Done r s1 ->
    (r < 0)%Z ->
    close fd (world s1) = (rc, w2) ->
    attempt b c s (Proc w2 (logged s1)) None
| attempt_connect_failed : forall s fd w s1 rc w2 rc' w3,
    socket (ai_family c) (ai_socktype c) (ai_protocol c) (world s) = (fd, w) ->
    (0 <= fd)%Z ->
    bound b fd (Proc w (logged s)) s1 ->
    connect fd (ai_addr c) (world s1) = (rc, w2) ->
    rc <> 0%Z ->
    close fd w2 = (rc', w3) ->
    attempt b c s (Proc w3 (logged s1)) None
| attempt_connected : forall s fd w s1 w2,
    socket (ai_family c) (ai_socktype c) (ai_protocol c) (world s) = (fd, w) ->
    (0 <= fd)%Z ->
    bound b fd (Proc w (logged s)) s1 ->
    connect fd (ai_addr c) (world s1) = (0%Z, w2) ->
    attempt b c s (Proc w2 (logged s1)) (Some fd).

(** The candidates are tried in order until one connects. *)
Inductive first_connected (b : option string)
    : list addrinfo -> proc W -> proc W -> option (addrinfo * Z) -> Prop :=
| first_exhausted : forall s, first_connected b [] s s None
| first_skip : forall c cs s s1 s2 r,
    attempt b c s s1 None ->
    first_connected b cs s1 s2 r ->
    first_connected b (c :: cs) s s2 r
| first_hit : forall c cs s s1 fd,
    attempt b c s s1 (Some fd) ->
    first_connected b (c :: cs) s s1 (Some (c, fd)).

End Candidates.

(** The reading of the specification under which [getpeer_information]
    reports a failure only when the numeric address could not be had. *)
Definition peer_info_fails_only_without_address : Prop :=
  forall (W : Type) (K : Kernel W) (IP_LENGTH HOSTNAME_LENGTH : nat) (fd : Z)
         (s s' : proc W) (rc : Z) (ipaddr string_addr : string),
    getpeer_information IP_LENGTH HOSTNAME_LENGTH fd s =
      Done (rc, ipaddr, string_addr) s' ->
    rc <> 0%Z ->
    fst (getpeername fd (world s)) = None \/
    exists sa,
      fst (getpeername fd (world s)) = Some sa /\
      get_ip_string sa IP_LENGTH = None.

(** ** sock.c, the descriptor-mode and listening functions *)

(** The calls of [socket_nonblocking], [socket_blocking] and [listen_sock]
    the class [Kernel] does not have.  [fcntl_getfl fd] is
    [fcntl (fd, F_GETFL, 0)] and [fcntl_setfl fd flags] is
    [fcntl (fd, F_SETFL, flags)]; [setsockopt_reuseaddr fd] is the one
    [setsockopt] call of the file; [strerror_errno] reads [strerror (errno)];
    [htons], [inet_addr] and the layout of [struct sockaddr_in] (family, port,
    address) are those of the platform. *)
Class Descriptors (W : Type) := {
  fcntl_getfl : Z -> W -> Z * W;
  fcntl_setfl : Z -> Z -> W -> Z * W;
  setsockopt_reuseaddr : Z -> W -> Z * W;
  listen : Z -> Z -> W -> Z * W;
  strerror_errno : W -> string;
  htons : Z -> Z;
  inet_addr : string -> Z;
  sockaddr_in : Z -> Z -> Z -> sockaddr
}.

Section Modes.

Context {W : Type} {K : Kernel W} {D : Descriptors W}.

(** The macros [O_NONBLOCK] of [fcntl.h] and [MAXLISTEN] of [common.h], and
    [sizeof (struct sockaddr_in)]. *)
Variable O_NONBLOCK : Z.
Variable MAXLISTEN : Z.
Variable sizeof_sockaddr_in : Z.

Notation "x <- m ; k" := (mbind m (fun x => k))
  (at level 61, m at next level, right associativity).
Notation "m ;; k" := (mbind m (fun _ => k))
  (at level 61, right associativity).

(** [socket_nonblocking]: the bit operations on [int] are those of [Z] on
    the two's complement representation. *)
Definition socket_nonblocking (sock : Z) : M W Z :=
  assert (0 <=? sock)%Z ;;
  flags <- sys (fcntl_getfl sock) ;
  sys (fcntl_setfl sock (Z.lor flags O_NONBLOCK)).

Definition socket_blocking (sock : Z) : M W Z :=
  assert (0 <=? sock)%Z ;;
  flags <- sys (fcntl_getfl sock) ;
  sys (fcntl_setfl sock (Z.land flags (Z.lnot O_NONBLOCK))).

(** [listen_sock]: the return value with what is stored through [addrlen]
    ([None] when nothing is stored).  [ipAddr] is [config.ipAddr], a field
    the rewrite engine has no use for; [addrlen] is a pointer the caller
    provides (the assertion on it holds); [port] is a [uint16_t], of which
    only the sign test of the assertion is used. *)
Definition listen_sock (ipAddr : option string) (port : Z)
    : M W (Z * option Z) :=
  assert (0 <? port)%Z ;;
  listenfd <- sys (socket AF_INET SOCK_STREAM 0) ;
  sys (setsockopt_reuseaddr listenfd) ;;
  let addr :=
    sockaddr_in AF_INET (htons port)
      (inet_addr (match ipAddr with
                  | Some a => a
                  | None => "0.0.0.0"
                  end)) in
  b <- sys (bind listenfd addr) ;
  if (b <? 0)%Z then
    e <- sys (fun w => (strerror_errno w, w)) ;
    log_msg LOG_ERR "Unable to bind listening socket because of %s" [Some e] ;;
    ret ((-1)%Z, None)
  else
    r <- sys (listen listenfd MAXLISTEN) ;
    if (r <? 0)%Z then
      e <- sys (fun w => (strerror_errno w, w)) ;
      log_msg LOG_ERR "Unable to start listening socket because of %s"
        [Some e] ;;
      ret ((-1)%Z, None)
    else ret (listenfd, Some sizeof_sockaddr_in).

End Modes.

(** ** Kernels that keep a record of their calls

    Any kernel can be run with a trace: the world is paired with the list of
    the calls made so far, each with what it returned. *)

Inductive event :=
| EvGetaddrinfo (node : string) (found : bool)
| EvSocket (fd : Z)
| EvBind (fd : Z) (addr : sockaddr) (rc : Z)
| EvConnect (fd : Z) (addr : sockaddr) (rc : Z)
| EvClose (fd : Z)
| EvGetpeername (fd : Z)
| EvGetnameinfo (addr : sockaddr).

Definition traced {W : Type} (K : Kernel W) : Kernel (W * list event) := {|
  getaddrinfo node service hints wt :=
    let (r, w) := getaddrinfo node service hints (fst wt) in
    (r, (w, snd wt ++ [EvGetaddrinfo node (negb (is_null r))]));
  socket family type protocol wt :=
    let (fd, w) := socket family type protocol (fst wt) in
    (fd, (w, snd wt ++ [EvSocket fd]));
  bind fd addr wt :=
    let (rc, w) := bind fd addr (fst wt) in
    (rc, (w, snd wt ++ [EvBind fd addr rc]));
  connect fd addr wt :=
    let (rc, w) := connect fd addr (fst wt) in
    (rc, (w, snd wt ++ [EvConnect fd addr rc]));
  close fd wt :=
    let (rc, w) := close fd (fst wt) in
    (rc, (w, snd wt ++ [EvClose fd]));
  getpeername fd wt :=
    let (r, w) := getpeername fd (fst wt) in
    (r, (w, snd wt ++ [EvGetpeername fd]));
  get_ip_string := get_ip_string;
  getnameinfo sa size wt :=
    let (r, w) := getnameinfo sa size (fst wt) in
    (r, (w, snd wt ++ [EvGetnameinfo sa]))
|}.

(** The descriptors a trace leaves open: [socket] opens the descriptor it
    returns, when it returns one, and [close] releases one. *)
Fixpoint remove_one (fd : Z) (l : list Z) : list Z :=
  match l with
  | [] => []
  | x :: l' => if (x =? fd)%Z then l' else x :: remove_one fd l'
  end.

Definition account (open : list Z) (e : event) : list Z :=
  match e with
  | EvSocket fd => if (0 <=? fd)%Z then fd :: open else open
  | EvClose fd => remove_one fd open
  | _ => open
  end.

Definition open_descriptors (t : list event) : list Z :=
  fold_left account t [].

(** The descriptor calls on a traced kernel are those of the kernel below;
    the trace has no entries for them. *)
Definition traced_descriptors {W : Type} (D : Descriptors W)
    : Descriptors (W * list event) := {|
  fcntl_getfl fd wt :=
    let (r, w) := fcntl_getfl fd (fst wt) in (r, (w, snd wt));
  fcntl_setfl fd flags wt :=
    let (r, w) := fcntl_setfl fd flags (fst wt) in (r, (w, snd wt));
  setsockopt_reuseaddr fd wt :=
    let (r, w) := setsockopt_reuseaddr fd (fst wt) in (r, (w, snd wt));
  listen fd backlog wt :=
    let (r, w) := listen fd backlog (fst wt) in (r, (w, snd wt));
  strerror_errno wt := strerror_errno (fst wt);
  htons := htons;
  inet_addr := inet_addr;
  sockaddr_in := sockaddr_in
|}.

(** The trace entries of a run of [bind] calls on one descriptor. *)
Definition bind_events (fd : Z) (calls : list (sockaddr * Z)) : list event :=
  map (fun call => EvBind fd (fst call) (snd call)) calls.

Definition failed_call (call : sockaddr * Z) : Prop := snd call <> 0%Z.

(** A world that keeps the status flags of each descriptor and lets a
    listener bind and listen unless told otherwise. *)
Record flag_world := FlagWorld {
  fw_flags : list (Z * Z);
  fw_next : Z;
  fw_taken : list sockaddr
}.

Definition flags_in (w : flag_world) (fd : Z) : Z :=
  match assocZ fd (fw_flags w) with
  | Some v => v
  | None => 0%Z
  end.

Definition flag_kernel : Kernel flag_world := {|
  getaddrinfo _ _ _ w := (None, w);
  socket _ _ _ w :=
    (fw_next w, FlagWorld (fw_flags w) (fw_next w + 1) (fw_taken w));
  bind _ addr w := (if known addr (fw_taken w) then (-1)%Z else 0%Z, w);
  connect _ _ w := ((-1)%Z, w);
  close _ w := (0%Z, w);
  getpeername _ w := (None, w);
  get_ip_string _ _ := None;
  getnameinfo _ _ w := ((EAI_NONAME, ""), w)
|}.

Definition flag_descriptors : Descriptors flag_world := {|
  fcntl_getfl fd w := (flags_in w fd, w);
  fcntl_setfl fd flags w :=
    (0%Z, FlagWorld ((fd, flags) :: fw_flags w) (fw_next w) (fw_taken w));
  setsockopt_reuseaddr _ w := (0%Z, w);
  listen _ _ w := (0%Z, w);
  strerror_errno _ := "Address already in use";
  htons p := p;
  inet_addr a := if String.eqb a "0.0.0.0" then 0%Z else 1%Z;
  sockaddr_in _ port a := if (a =? 0)%Z then "0.0.0.0" else "192.168.0.9"
|}.

Definition flag_proc : proc flag_world :=
  Proc (FlagWorld [(5%Z, 2%Z)] 3 []) [].

(** The service string goes back to the port it was made from. *)
Definition port_round_trip (port : Z) : bool :=
  match NilZero.int_of_string (portstr port) with
  | Some d => (Z.of_int d =? port)%Z
  | None => false
  end.

(** The call [c] of [reversepath_add] hands in the rule [r] in a form the
    function accepts. *)
Definition supplies (c : add_call) (r : reversepath) : Prop :=
  add_heap c = true /\
  add_url c = Some (url r) /\ contains (url r) "://" /\
  ((add_path c = None /\ path r = "/") \/
   (add_path c = Some (path r) /\ starts_with_slash (path r))).

(** The path a rule is stored under. *)
Definition stored_path (path_ : option string) : string :=
  match path_ with
  | Some p => p
  | None => "/"
  end.

Definition is_info (e : log_entry) : bool :=
  match log_lvl e with
  | LOG_INFO => true
  | _ => false
  end.

(** The check of [n] consecutive ports from [p] on: the service string is
    the whole decimal rendering and goes back to the port. *)
Fixpoint ports_from (n : nat) (p : Z) : bool :=
  match n with
  | O => true
  | S n' =>
      String.eqb (portstr p) (NilZero.string_of_int (Z.to_int p))
      && port_round_trip p && ports_from n' (p + 1)
  end.

(** ** Strings *)

Lemma starts_with_iff (s p : string) :
  CStr.starts_with s p = true <-> is_prefix p s.
Proof.
  revert s; induction p as [|a p IH]; intros s; simpl.
  - split; [intros _; exists s; reflexivity | intros _; destruct s; reflexivity].
  - destruct s as [|b s].
    + split; [discriminate | intros [rest H]; discriminate].
    + simpl. rewrite andb_true_iff, Ascii.eqb_eq, IH. split.
      * intros [-> [rest ->]]. exists rest. reflexivity.
      * intros [rest H]. simpl in H. injection H as -> ->.
        split; [reflexivity | exists rest; reflexivity].
Qed.

Lemma strstr_unfold (h n : string) :
  CStr.strstr h n =
  if CStr.starts_with h n then Some O
  else match h with
       | EmptyString => None
       | String _ rest => option_map S (CStr.strstr rest n)
       end.
Proof. destruct h; reflexivity. Qed.

Lemma strstr_at_start (s p : string) :
  CStr.strstr s p = Some O <-> is_prefix p s.
Proof.
  rewrite <- starts_with_iff, strstr_unfold.
  destruct (CStr.starts_with s p); [tauto|].
  destruct s as [|c s]; [split; discriminate|].
  destruct (CStr.strstr s p); simpl; split; discriminate.
Qed.

Lemma occurs_at_0 (n h : string) : occurs_at n h 0 <-> is_prefix n h.
Proof.
  split.
  - intros [pre [post [H L]]]. destruct pre; [|discriminate].
    exists post. exact H.
  - intros [rest H]. exists "", rest. split; [exact H | reflexivity].
Qed.

Lemma occurs_at_S (n : string) (c : ascii) (h : string) (k : nat) :
  occurs_at n (String c h) (S k) <-> occurs_at n h k.
Proof.
  split.
  - intros [pre [post [H L]]]. destruct pre as [|a pre]; [discriminate|].
    simpl in H, L. injection H as _ H. injection L as L.
    exists pre, post. split; assumption.
  - intros [pre [post [H L]]]. exists (String c pre), post.
    simpl. rewrite H, L. split; reflexivity.
Qed.

(** [strstr] finds the first occurrence, and only misses when there is
    none. *)
Lemma strstr_first (h n : string) (k : nat) :
  CStr.strstr h n = Some k <->
  occurs_at n h k /\ forall j, (j < k)%nat -> ~ occurs_at n h j.
Proof.
  revert k; induction h as [|c h IH]; intros k; rewrite strstr_unfold.
  - destruct (CStr.starts_with "" n) eqn:E.
    + apply starts_with_iff, occurs_at_0 in E. split.
      * intros H. injection H as <-. split; [exact E | lia].
      * intros [_ H]. destruct k; [reflexivity|].
        exfalso. apply (H 0%nat); [lia | exact E].
    + split; [discriminate|]. intros [[pre [post [H L]]] _].
      destruct pre; [|discriminate]. destruct n; discriminate.
  - destruct (CStr.starts_with (String c h) n) eqn:E.
    + apply starts_with_iff, occurs_at_0 in E. split.
      * intros H. injection H as <-. split; [exact E | lia].
      * intros [_ H]. destruct k; [reflexivity|].
        exfalso. apply (H 0%nat); [lia | exact E].
    + assert (N0 : ~ occurs_at n (String c h) 0).
      { rewrite occurs_at_0, <- starts_with_iff, E. discriminate. }
      destruct k as [|k].
      * split; [|intros [H _]; contradiction].
        destruct (CStr.strstr h n); discriminate.
      * rewrite occurs_at_S. specialize (IH k).
        destruct (CStr.strstr h n) as [m|]; simpl.
        -- split.
           ++ intros H. injection H as ->. destruct IH as [IH _].
              destruct (IH eq_refl) as [Hk Hmin]. split; [exact Hk|].
              intros [|j] Hj; [exact N0|]. rewrite occurs_at_S.
              apply Hmin. lia.
           ++ intros [Hk Hmin]. destruct IH as [_ IH].
              assert (Some m = Some k) as Hm; [|injection Hm as ->; reflexivity].
              apply IH. split; [exact Hk|]. intros j Hj Hocc.
              apply (Hmin (S j)); [lia|]. rewrite occurs_at_S. exact Hocc.
        -- split; [discriminate|]. intros [Hk Hmin]. destruct IH as [_ IH].
           assert (@None nat = Some k) as Hm; [|discriminate].
           apply IH. split; [exact Hk|]. intros j Hj Hocc.
           apply (Hmin (S j)); [lia|]. rewrite occurs_at_S. exact Hocc.
Qed.

Lemma strstr_none (h n : string) :
  CStr.strstr h n = None <-> ~ contains h n.
Proof.
  induction h as [|c h IH]; rewrite strstr_unfold.
  - destruct (CStr.starts_with "" n) eqn:E.
    + apply starts_with_iff, occurs_at_0 in E.
      split; [discriminate | intros H; exfalso; apply H; exists 0%nat; exact E].
    + split; [|reflexivity]. intros _ [k [pre [post [H L]]]].
      destruct pre; [|discriminate]. destruct n; discriminate.
  - destruct (CStr.starts_with (String c h) n) eqn:E.
    + apply starts_with_iff, occurs_at_0 in E.
      split; [discriminate | intros H; exfalso; apply H; exists 0%nat; exact E].
    + assert (N0 : ~ occurs_at n (String c h) 0).
      { rewrite occurs_at_0, <- starts_with_iff, E. discriminate. }
      destruct (CStr.strstr h n) as [m|] eqn:F; simpl.
      * split; [discriminate|]. intros H. exfalso.
        apply strstr_first in F. destruct F as [Hm _].
        apply H. exists (S m). apply occurs_at_S. exact Hm.
      * split; [|reflexivity]. intros _ [[|k] Hk]; [exact (N0 Hk)|].
        apply occurs_at_S in Hk. destruct IH as [IH _].
        apply (IH eq_refl). exists k. exact Hk.
Qed.

Lemma string_length_app (a b : string) :
  String.length (a ++ b) = (String.length a + String.length b)%nat.
Proof. induction a as [|c a IH]; simpl; [reflexivity | rewrite IH; reflexivity]. Qed.

Lemma string_app_assoc (a b c : string) :
  ((a ++ b) ++ c)%string = (a ++ b ++ c)%string.
Proof. induction a as [|x a IH]; simpl; [reflexivity | rewrite IH; reflexivity]. Qed.

Lemma string_app_nil (s : string) : (s ++ "")%string = s.
Proof. induction s as [|c s IH]; simpl; [|rewrite IH]; reflexivity. Qed.

Lemma take_all (n : nat) (s : string) :
  (String.length s <= n)%nat -> CStr.take n s = s.
Proof.
  revert n; induction s as [|c s IH]; intros [|n] H; simpl in *;
    try reflexivity; try lia.
  rewrite IH by lia. reflexivity.
Qed.

Lemma offset_app (pre s : string) :
  CStr.offset (pre ++ s) (String.length pre) = Some s.
Proof.
  induction pre as [|c pre IH]; simpl; [destruct s; reflexivity | exact IH].
Qed.

Lemma deref_slash (s : string) :
  Ascii.eqb (CStr.deref s) slash = true <-> starts_with_slash s.
Proof.
  rewrite Ascii.eqb_eq. destruct s as [|c s]; simpl.
  - split; [discriminate | intros [rest H]; discriminate].
  - split.
    + intros ->. exists s. reflexivity.
    + intros [rest H]. injection H as -> _. reflexivity.
Qed.

(** ** The rule table *)

Lemma reversepath_get_cons (r : reversepath) (next : list reversepath)
    (u : string) :
  reversepath_get (r :: next) u =
  if CStr.starts_with u (path r) then Some r else reversepath_get next u.
Proof.
  simpl. rewrite (strstr_unfold u (path r)).
  destruct (CStr.starts_with u (path r)); [reflexivity|].
  destruct u as [|c u]; [reflexivity|].
  destruct (CStr.strstr u (path r)); reflexivity.
Qed.

(** The rule found is the first one, from the head of the list, whose path
    is a prefix of the URL. *)
Lemma reversepath_get_some (tbl : list reversepath) (u : string)
    (r : reversepath) :
  reversepath_get tbl u = Some r <->
  exists before after,
    tbl = before ++ r :: after /\ is_prefix (path r) u /\
    Forall (fun r' => ~ is_prefix (path r') u) before.
Proof.
  induction tbl as [|r0 tbl IH].
  - split; [discriminate|]. intros [before [after [H _]]].
    destruct before; discriminate.
  - rewrite reversepath_get_cons.
    destruct (CStr.starts_with u (path r0)) eqn:E.
    + apply starts_with_iff in E. split.
      * intros H. injection H as <-. exists [], tbl. auto.
      * intros [before [after [H [Hp Hb]]]]. destruct before as [|b before].
        -- injection H as -> _. reflexivity.
        -- injection H as -> _. inversion Hb; contradiction.
    + assert (N : ~ is_prefix (path r0) u).
      { rewrite <- starts_with_iff, E. discriminate. }
      rewrite IH. split.
      * intros [before [after [-> [Hp Hb]]]].
        exists (r0 :: before), after. auto.
      * intros [before [after [H [Hp Hb]]]]. destruct before as [|b before].
        -- injection H as -> _. contradiction.
        -- injection H as -> ->. inversion Hb; subst.
           exists before, after. auto.
Qed.

Lemma reversepath_get_none (tbl : list reversepath) (u : string) :
  reversepath_get tbl u = None <->
  Forall (fun r => ~ is_prefix (path r) u) tbl.
Proof.
  induction tbl as [|r0 tbl IH].
  - split; [constructor | reflexivity].
  - rewrite reversepath_get_cons.
    destruct (CStr.starts_with u (path r0)) eqn:E.
    + apply starts_with_iff in E. split; [discriminate|].
      intros H. inversion H; contradiction.
    + rewrite IH. split.
      * intros H. constructor; [|exact H].
        rewrite <- starts_with_iff, E. discriminate.
      * intros H. inversion H; assumption.
Qed.

Lemma reversepath_get_in (tbl : list reversepath) (u : string)
    (r : reversepath) :
  reversepath_get tbl u = Some r -> In r tbl.
Proof.
  intros H. apply reversepath_get_some in H.
  destruct H as [before [after [-> _]]]. apply in_elt.
Qed.

Lemma contains_iff_strstr (h n : string) :
  contains h n <-> exists k, CStr.strstr h n = Some k.
Proof.
  split.
  - intros C. destruct (CStr.strstr h n) as [k|] eqn:E; [exists k; reflexivity|].
    apply strstr_none in E. contradiction.
  - intros [k E]. apply strstr_first in E. exists k. tauto.
Qed.

(** What [reversepath_add] does to the list: a rule is prepended exactly when
    the URL has a scheme separator, the path (when given) starts with a slash
    and the allocation succeeded. *)
Lemma reversepath_add_list (heap : bool) (p u : option string)
    (config : config_s) (l : log) :
  fst (reversepath_add heap p u (config, l)) = config \/
  exists u',
    u = Some u' /\ contains u' "://" /\ heap = true /\
    (p = None \/ exists p', p = Some p' /\ starts_with_slash p') /\
    fst (reversepath_add heap p u (config, l)) =
    set_reversepath_list
      (ReversePath (match p with None => "/" | Some p' => p' end) u'
       :: reversepath_list config) config.
Proof.
  unfold reversepath_add.
  destruct u as [u'|]; [|left; reflexivity].
  destruct (CStr.strstr u' "://") as [k|] eqn:E; [|left; reflexivity].
  assert (C : contains u' "://") by (apply contains_iff_strstr; eauto).
  destruct p as [p'|].
  - destruct (Ascii.eqb (CStr.deref p') slash) eqn:D; simpl;
      [|left; reflexivity].
    destruct heap; simpl; [|left; reflexivity].
    right. exists u'. apply deref_slash in D. eauto 10.
  - destruct heap; simpl; [|left; reflexivity].
    right. exists u'. eauto 10.
Qed.

Lemma reversepath_add_accepted (p u : string) (config : config_s) (l : log) :
  starts_with_slash p -> contains u "://" ->
  reversepath_add true (Some p) (Some u) (config, l) =
  (set_reversepath_list (ReversePath p u :: reversepath_list config) config,
   log_message LOG_INFO "Added reverse proxy rule: %s -> %s" [Some p; Some u] l).
Proof.
  intros Hp Hu. apply deref_slash in Hp. apply contains_iff_strstr in Hu.
  destruct Hu as [k Hu]. unfold reversepath_add. rewrite Hu, Hp. reflexivity.
Qed.

Lemma reversepath_add_turned_down (heap : bool) (p u : option string)
    (config : config_s) (l : log) :
  turned_down p u ->
  exists e,
    reversepath_add heap p u (config, l) = (config, l ++ [e]) /\
    log_lvl e = LOG_WARNING.
Proof.
  unfold reversepath_add, log_message.
  intros [-> | [[u' [-> N]] | [p' [-> N]]]].
  - eexists; split; reflexivity.
  - destruct (CStr.strstr u' "://") eqn:E.
    + exfalso. apply N, contains_iff_strstr. eauto.
    + eexists; split; reflexivity.
  - destruct u as [u'|]; [|eexists; split; reflexivity].
    destruct (CStr.strstr u' "://"); [|eexists; split; reflexivity].
    destruct (Ascii.eqb (CStr.deref p') slash) eqn:D.
    + apply deref_slash in D. contradiction.
    + simpl. eexists; split; reflexivity.
Qed.

Lemma reversepath_add_valid (heap : bool) (p u : option string)
    (config : config_s) (l : log) :
  Forall valid_rule (reversepath_list config) ->
  Forall valid_rule
    (reversepath_list (fst (reversepath_add heap p u (config, l)))).
Proof.
  intros V.
  destruct (reversepath_add_list heap p u config l)
    as [-> | [u' [_ [C [_ [P ->]]]]]]; [exact V|].
  simpl. constructor; [|exact V]. split; simpl; [|exact C].
  destruct P as [-> | [p' [-> S]]]; [exists ""; reflexivity | exact S].
Qed.

Lemma run_adds_valid (calls : list add_call) (st : config_s * log) :
  Forall valid_rule (reversepath_list (fst st)) ->
  Forall valid_rule (reversepath_list (fst (run_adds calls st))).
Proof.
  revert st. induction calls as [|c calls IH]; intros [config l] V.
  - exact V.
  - simpl. apply IH. apply reversepath_add_valid. exact V.
Qed.

Lemma empty_url_turned_down (p : option string) : turned_down p (Some "").
Proof.
  right; left. exists "". split; [reflexivity|].
  rewrite contains_iff_strstr. intros [k H]. discriminate.
Qed.

(** C3: [reversepath_get] walks the list from its head, where
    [reversepath_add] puts the most recent rule, and returns the first rule
    whose path is a prefix of the URL (an occurrence further inside the URL
    does not count), or nothing when no path is a prefix; of two rules added
    for the same path, the later one is found. *)
Theorem C3_first_prefix_match_most_recent_first :
  (forall tbl u,
     match reversepath_get tbl u with
     | Some r =>
         exists before after,
           tbl = before ++ r :: after /\ is_prefix (path r) u /\
           Forall (fun r' => ~ is_prefix (path r') u) before
     | None => Forall (fun r => ~ is_prefix (path r) u) tbl
     end) /\
  (contains "/x/foo" "/foo" /\
   reversepath_get [ReversePath "/foo" "http://b/base"] "/x/foo" = None) /\
  (forall config l p u1 u2 request,
     starts_with_slash p -> contains u1 "://" -> contains u2 "://" ->
     is_prefix p request ->
     let st :=
       reversepath_add true (Some p) (Some u2)
         (reversepath_add true (Some p) (Some u1) (config, l)) in
     reversepath_list (fst st) =
       ReversePath p u2 :: ReversePath p u1 :: reversepath_list config /\
     reversepath_get (reversepath_list (fst st)) request =
       Some (ReversePath p u2)).
Proof.
  split; [|split].
  - intros tbl u. destruct (reversepath_get tbl u) as [r|] eqn:E.
    + apply reversepath_get_some. exact E.
    + apply reversepath_get_none. exact E.
  - split; [|reflexivity]. exists 2%nat, "/x", "". split; reflexivity.
  - intros config l p u1 u2 request Hp H1 H2 Hreq.
    cbv zeta. rewrite (reversepath_add_accepted p u1 config l Hp H1).
    rewrite (reversepath_add_accepted p u2 _ _ Hp H2). simpl fst.
    split; [reflexivity|].
    unfold set_reversepath_list, reversepath_list.
    rewrite reversepath_get_cons. simpl.
    apply starts_with_iff in Hreq. rewrite Hreq. reflexivity.
Qed.

Lemma C3_witness :
  reversepath_get
    (reversepath_list
       (fst (reversepath_add true (Some "/foo") (Some "http://r2/")
               (reversepath_add true (Some "/foo") (Some "http://r1/")
                  (plain_config, [])))))
    "/foo/x" = Some (ReversePath "/foo" "http://r2/").
Proof.
  apply (proj2 (proj2 C3_first_prefix_match_most_recent_first)
           plain_config [] "/foo" "http://r1/" "http://r2/" "/foo/x").
  - exists "foo". reflexivity.
  - exists 4%nat, "http", "r1/". split; reflexivity.
  - exists 4%nat, "http", "r2/". split; reflexivity.
  - exists "/x". reflexivity.
Defined.

(** C4: whatever calls of [reversepath_add] are made, every stored rule has a
    path starting with a slash and a URL with a scheme separator; a call with
    a missing or empty URL, a URL without the separator or a path not
    starting with a slash leaves the configuration as it was and returns
    normally after one warning; a missing path is stored as a slash; so
    [reversepath_get] never returns a rule that was turned down. *)
Theorem C4_only_valid_rules_are_stored :
  (forall calls config l,
     Forall valid_rule (reversepath_list config) ->
     Forall valid_rule (reversepath_list (fst (run_adds calls (config, l))))) /\
  (forall heap p u config l,
     turned_down p u \/ u = Some "" ->
     exists e,
       reversepath_add heap p u (config, l) = (config, l ++ [e]) /\
       log_lvl e = LOG_WARNING) /\
  (forall u config l,
     contains u "://" ->
     fst (reversepath_add true None (Some u) (config, l)) =
     set_reversepath_list (ReversePath "/" u :: reversepath_list config) config) /\
  (forall calls magic only bound l request r,
     reversepath_get
       (reversepath_list (fst (run_adds calls (Config [] magic only bound, l))))
       request = Some r ->
     valid_rule r /\
     forall p u, turned_down (Some p) (Some u) -> r <> ReversePath p u).
Proof.
  split; [|split; [|split]].
  - intros calls config l V. apply run_adds_valid. exact V.
  - intros heap p u config l [T | ->].
    + apply reversepath_add_turned_down. exact T.
    + apply reversepath_add_turned_down. apply empty_url_turned_down.
  - intros u config l C. apply contains_iff_strstr in C. destruct C as [k C].
    unfold reversepath_add. rewrite C. reflexivity.
  - intros calls magic only bound l request r G.
    apply reversepath_get_in in G.
    assert (V : valid_rule r).
    { eapply Forall_forall; [|exact G]. apply run_adds_valid. constructor. }
    split; [exact V|].
    intros p u [T | [[u' [E N]] | [p' [E N]]]] ->; destruct V as [Vp Vu];
      simpl in *.
    + discriminate.
    + injection E as <-. contradiction.
    + injection E as <-. contradiction.
Qed.

Lemma C4_witness :
  Forall valid_rule
    (reversepath_list
       (fst (run_adds
               [AddCall true (Some "foo") (Some "http://a/");
                AddCall true None (Some "http://b/");
                AddCall true (Some "/x") (Some "nowhere");
                AddCall true (Some "/y") None]
               (plain_config, [])))).
Proof.
  apply (proj1 C4_only_valid_rules_are_stored). constructor.
Defined.

(** ** The rewrite engine *)

Lemma strcpy_fits (size : nat) (src : string) :
  (String.length src + 1 <= size)%nat -> strcpy size src = Returns src.
Proof. intros H. unfold strcpy. apply Nat.leb_le in H. rewrite H. reflexivity. Qed.

Lemma strcat_fits (size : nat) (dst src : string) :
  (String.length dst + String.length src + 1 <= size)%nat ->
  strcat size dst src = Returns (dst ++ src)%string.
Proof. intros H. unfold strcat. apply Nat.leb_le in H. rewrite H. reflexivity. Qed.

Lemma at_offset_app (pre s : string) :
  at_offset (pre ++ s) (String.length pre) = Returns s.
Proof. unfold at_offset. rewrite offset_app. reflexivity. Qed.

(** The direct match: no buffer is overrun and the tail of the request is
    appended to the backend URL. *)
Lemma locate_direct (REVERSE_COOKIE : string) (config : config_s)
    (headers : hashmap_t) (u : string) (l : log) (r : reversepath) :
  starts_with_slash u ->
  reversepath_get (reversepath_list config) u = Some r ->
  exists rest,
    u = (path r ++ rest)%string /\
    locate_mapping REVERSE_COOKIE config headers u l =
    Returns (Some (url r ++ rest)%string, Ref r, l).
Proof.
  intros Hs Hg. apply deref_slash in Hs.
  pose proof Hg as Hp. apply reversepath_get_some in Hp.
  destruct Hp as [_ [_ [_ [[rest Hp] _]]]].
  exists rest. split; [exact Hp|].
  unfold locate_mapping. rewrite Hs, Hg.
  rewrite strcpy_fits by lia. simpl obind.
  rewrite Hp at 1. rewrite at_offset_app. simpl obind.
  rewrite strcat_fits; [reflexivity|].
  rewrite Hp, string_length_app. lia.
Qed.

(** The cookie fallback, once the direct match has failed: the marker is
    looked for in the cookie header and the rest of the header is given to
    [reversepath_get]. *)
Lemma locate_cookie (REVERSE_COOKIE : string) (config : config_s)
    (headers : hashmap_t) (u : string) (l : log)
    (cookie pre value : string) :
  starts_with_slash u ->
  reversepath_get (reversepath_list config) u = None ->
  reversemagic config = true ->
  hashmap_entry_by_key headers "cookie" = Some cookie ->
  cookie = (pre ++ (REVERSE_COOKIE ++ "=") ++ value)%string ->
  (forall j, (j < String.length pre)%nat ->
             ~ occurs_at (REVERSE_COOKIE ++ "=") cookie j) ->
  locate_mapping REVERSE_COOKIE config headers u l =
  match reversepath_get (reversepath_list config) value with
  | Some r =>
      Returns (Some (url r ++ match u with
                              | EmptyString => EmptyString
                              | String _ rest => rest
                              end)%string,
               Ref r,
               log_message LOG_INFO "Magical tracking cookie says: %s"
                 [Some (path r)] l)
  | None => Returns (None, NULL, l)
  end.
Proof.
  intros Hs Hg Hm Hc Hcookie Hfirst.
  pose proof Hs as [rest Hu]. apply deref_slash in Hs.
  assert (Hstr : CStr.strstr cookie (REVERSE_COOKIE ++ "=")
                 = Some (String.length pre)).
  { apply strstr_first. split; [|exact Hfirst].
    exists pre, value. split; [exact Hcookie | reflexivity]. }
  assert (Hoff : at_offset cookie
                   (String.length pre + String.length REVERSE_COOKIE + 1)
                 = Returns value).
  { replace (String.length pre + String.length REVERSE_COOKIE + 1)%nat
      with (String.length (pre ++ REVERSE_COOKIE ++ "=")).
    - rewrite Hcookie.
      replace (pre ++ (REVERSE_COOKIE ++ "=") ++ value)%string
        with ((pre ++ REVERSE_COOKIE ++ "=") ++ value)%string.
      + apply at_offset_app.
      + rewrite !string_app_assoc. reflexivity.
    - rewrite !string_length_app. simpl. lia. }
  unfold locate_mapping. rewrite Hs, Hg, Hm, Hc, Hstr, Hoff. simpl obind.
  destruct (reversepath_get (reversepath_list config) value) as [r|];
    [|reflexivity].
  rewrite strcpy_fits by lia. simpl obind.
  rewrite Hu. change (at_offset (String slash rest) 1) with (Returns rest).
  unfold obind at 1.
  rewrite strcat_fits; [reflexivity|]. simpl. lia.
Qed.

(** A URL that does not start with a slash reaches the second half of the
    function with nothing assigned to [reverse]. *)
Lemma locate_absolute (REVERSE_COOKIE : string) (config : config_s)
    (headers : hashmap_t) (u : string) (l : log) :
  ~ starts_with_slash u ->
  locate_mapping REVERSE_COOKIE config headers u l =
  Returns (None, Indeterminate, l).
Proof.
  intros N. unfold locate_mapping.
  destruct (Ascii.eqb (CStr.deref u) slash) eqn:E; [|reflexivity].
  apply deref_slash in E. contradiction.
Qed.

(** C1: when the URL starts with a slash and [reversepath_get] finds a rule
    for it, [reverse_rewrite_url] returns the rule's URL followed by the
    request URL without its first [strlen (rule path)] bytes, whatever the
    headers and the flags are; a request equal to the rule's path gives the
    rule's URL alone. *)
Theorem C1_direct_match_composition (REVERSE_COOKIE : string)
    (config : config_s) (connptr : conn_s) (headers : hashmap_t)
    (u : string) (l : log) (r : reversepath) :
  starts_with_slash u ->
  reversepath_get (reversepath_list config) u = Some r ->
  exists rest,
    u = (path r ++ rest)%string /\
    CStr.offset u (String.length (path r)) = Some rest /\
    reverse_rewrite_url REVERSE_COOKIE config connptr headers u l =
    Returns (Some (url r ++ rest)%string,
             (if reversemagic config
              then set_conn_reversepath connptr (path r) else connptr),
             log_message LOG_CONN "Rewriting URL: %s -> %s"
               [Some u; Some (url r ++ rest)%string] l) /\
    (u = path r ->
     reverse_rewrite_url REVERSE_COOKIE config connptr headers u l =
     Returns (Some (url r),
              (if reversemagic config
               then set_conn_reversepath connptr (path r) else connptr),
              log_message LOG_CONN "Rewriting URL: %s -> %s"
                [Some u; Some (url r)] l)).
Proof.
  intros Hs Hg.
  destruct (locate_direct REVERSE_COOKIE config headers u l r Hs Hg)
    as [rest [Hu Hl]].
  assert (E : reverse_rewrite_url REVERSE_COOKIE config connptr headers u l =
              Returns (Some (url r ++ rest)%string,
                       (if reversemagic config
                        then set_conn_reversepath connptr (path r) else connptr),
                       log_message LOG_CONN "Rewriting URL: %s -> %s"
                         [Some u; Some (url r ++ rest)%string] l)).
  { unfold reverse_rewrite_url. rewrite Hl. simpl obind.
    rewrite andb_false_r. destruct (reversemagic config); reflexivity. }
  exists rest. split; [exact Hu|]. split; [|split; [exact E|]].
  - rewrite Hu at 1. apply offset_app.
  - intros Hexact. rewrite E.
    assert (rest = "") as ->.
    { apply (f_equal String.length) in Hu.
      rewrite string_length_app, <- Hexact in Hu.
      destruct rest; [reflexivity | simpl in Hu; lia]. }
    rewrite string_app_nil. reflexivity.
Qed.

Lemma C1_witness :
  exists rest,
    "/foo/x" = ("/foo" ++ rest)%string /\
    CStr.offset "/foo/x" 4 = Some rest /\
    reverse_rewrite_url "tinyp" (Config spec_table false false None)
      (Conn None None) [] "/foo/x" [] =
    Returns (Some ("http://b/base" ++ rest)%string, Conn None None,
             log_message LOG_CONN "Rewriting URL: %s -> %s"
               [Some "/foo/x"; Some ("http://b/base" ++ rest)%string] []) /\
    ("/foo/x" = "/foo" ->
     reverse_rewrite_url "tinyp" (Config spec_table false false None)
       (Conn None None) [] "/foo/x" [] =
     Returns (Some "http://b/base", Conn None None,
              log_message LOG_CONN "Rewriting URL: %s -> %s"
                [Some "/foo/x"; Some "http://b/base"] [])).
Proof.
  apply (C1_direct_match_composition "tinyp"
           (Config spec_table false false None) (Conn None None) [] "/foo/x" []
           (ReversePath "/foo" "http://b/base")).
  - exists "foo/x". reflexivity.
  - reflexivity.
Defined.

Lemma cookie_key_any_case (k v : string) (m : hashmap_t) :
  CStr.lower k = "cookie" ->
  hashmap_entry_by_key ((k, v) :: m) "cookie" = Some v.
Proof.
  intros H. simpl. unfold CStr.strcasecmp_eq. rewrite H. reflexivity.
Qed.

(** C2: the URL starts with a slash, no rule matches it directly, the magic
    cookie is enabled and the cookie header, looked up without regard to
    case, holds the marker (cookie name, then an equals sign); when
    [reversepath_get] finds a rule for what follows the first marker,
    [reverse_rewrite_url] returns the rule's URL followed by the request URL
    without its first byte only, and records the rule's path. *)
Theorem C2_cookie_fallback_composition (REVERSE_COOKIE : string)
    (config : config_s) (connptr : conn_s) (headers : hashmap_t)
    (u : string) (l : log) (cookie pre value : string) (r : reversepath) :
  starts_with_slash u ->
  reversepath_get (reversepath_list config) u = None ->
  reversemagic config = true ->
  hashmap_entry_by_key headers "cookie" = Some cookie ->
  cookie = (pre ++ (REVERSE_COOKIE ++ "=") ++ value)%string ->
  (forall j, (j < String.length pre)%nat ->
             ~ occurs_at (REVERSE_COOKIE ++ "=") cookie j) ->
  reversepath_get (reversepath_list config) value = Some r ->
  exists rest,
    u = String slash rest /\
    CStr.offset u 1 = Some rest /\
    reverse_rewrite_url REVERSE_COOKIE config connptr headers u l =
    Returns (Some (url r ++ rest)%string,
             set_conn_reversepath connptr (path r),
             log_message LOG_CONN "Rewriting URL: %s -> %s"
               [Some u; Some (url r ++ rest)%string]
               (log_message LOG_INFO "Magical tracking cookie says: %s"
                  [Some (path r)] l)).
Proof.
  intros Hs Hg Hm Hc Hcookie Hfirst Hv.
  pose proof Hs as [rest Hu]. exists rest.
  split; [exact Hu|]. split; [rewrite Hu; reflexivity|].
  unfold reverse_rewrite_url.
  rewrite (locate_cookie REVERSE_COOKIE config headers u l cookie pre value
             Hs Hg Hm Hc Hcookie Hfirst).
  rewrite Hv, Hu. simpl obind. rewrite andb_false_r, Hm. reflexivity.
Qed.

Lemma C2_witness :
  exists rest,
    "/other" = String slash rest /\
    CStr.offset "/other" 1 = Some rest /\
    reverse_rewrite_url "tinyp" (Config spec_table true true None)
      (Conn None None) [("Cookie", "lang=en; tinyp=/bar")] "/other" [] =
    Returns (Some ("http://b2/" ++ rest)%string,
             set_conn_reversepath (Conn None None) "/bar",
             log_message LOG_CONN "Rewriting URL: %s -> %s"
               [Some "/other"; Some ("http://b2/" ++ rest)%string]
               (log_message LOG_INFO "Magical tracking cookie says: %s"
                  [Some "/bar"] [])).
Proof.
  apply (C2_cookie_fallback_composition "tinyp"
           (Config spec_table true true None) (Conn None None)
           [("Cookie", "lang=en; tinyp=/bar")] "/other" []
           "lang=en; tinyp=/bar" "lang=en; " "/bar"
           (ReversePath "/bar" "http://b2/")).
  - exists "other". reflexivity.
  - reflexivity.
  - reflexivity.
  - reflexivity.
  - reflexivity.
  - intros j Hj Hocc.
    assert (E : CStr.strstr "lang=en; tinyp=/bar" "tinyp=" = Some 9%nat)
      by reflexivity.
    apply strstr_first in E. destruct E as [_ E]. exact (E j Hj Hocc).
  - reflexivity.
Defined.

(** The examples of the specification. *)
Example direct_match_example :
  reverse_rewrite_url "tinyp" (Config spec_table false false None)
    (Conn None None) [] "/foo/x" [] =
  Returns (Some "http://b/base/x", Conn None None,
           [LogEntry LOG_CONN "Rewriting URL: %s -> %s"
              [Some "/foo/x"; Some "http://b/base/x"]]).
Proof. reflexivity. Qed.

Example exact_match_example :
  reverse_rewrite_url "tinyp" (Config spec_table false false None)
    (Conn None None) [] "/foo" [] =
  Returns (Some "http://b/base", Conn None None,
           [LogEntry LOG_CONN "Rewriting URL: %s -> %s"
              [Some "/foo"; Some "http://b/base"]]).
Proof. reflexivity. Qed.

Example cookie_fallback_example :
  reverse_rewrite_url "tinyp" (Config spec_table true false None)
    (Conn None None) [("cookie", "tinyp=/bar")] "/other" [] =
  Returns (Some "http://b2/other", Conn (Some "/bar") None,
           [LogEntry LOG_INFO "Magical tracking cookie says: %s" [Some "/bar"];
            LogEntry LOG_CONN "Rewriting URL: %s -> %s"
              [Some "/other"; Some "http://b2/other"]]).
Proof. reflexivity. Qed.

Example reverse_only_no_match_example :
  rejected (Conn None None) "/zzz"
    (reverse_rewrite_url "tinyp" (Config spec_table false true None)
       (Conn None None) [] "/zzz" []).
Proof. eexists. reflexivity. Qed.

Example forward_no_match_example :
  passed_through (Conn None None)
    (reverse_rewrite_url "tinyp" (Config spec_table false false None)
       (Conn None None) [] "/zzz" []).
Proof. eexists. reflexivity. Qed.

(** When no rule was produced, [reverse] is NULL or was never assigned. *)
Lemma no_rule_no_object (REVERSE_COOKIE : string) (config : config_s)
    (headers : hashmap_t) (u : string) (l l1 : log)
    (reverse : pointer reversepath) :
  locate_mapping REVERSE_COOKIE config headers u l = Returns (None, reverse, l1) ->
  reverse = NULL \/ reverse = Indeterminate.
Proof.
  unfold locate_mapping, strcpy, strcat, at_offset, obind.
  repeat match goal with
         | |- context [match ?x with _ => _ end] => destruct x
         end;
    intros H; inversion H; auto.
Qed.

(** The three ways the second half of [reverse_rewrite_url] goes when no
    rule was produced. *)
Lemma no_rule_reverse_only (REVERSE_COOKIE : string) (config : config_s)
    (connptr : conn_s) (headers : hashmap_t) (u : string) (l l1 : log)
    (reverse : pointer reversepath) :
  locate_mapping REVERSE_COOKIE config headers u l = Returns (None, reverse, l1) ->
  reverseonly config = true ->
  reverse_rewrite_url REVERSE_COOKIE config connptr headers u l =
  Returns (None,
           indicate_http_error connptr 400 "Bad Request"
             [("detail", "Request has an invalid URL"); ("url", u)],
           log_message LOG_ERR "Bad request" [] l1).
Proof.
  intros H O. unfold reverse_rewrite_url. rewrite H. simpl. rewrite O.
  reflexivity.
Qed.

Lemma no_rule_forward (REVERSE_COOKIE : string) (config : config_s)
    (connptr : conn_s) (headers : hashmap_t) (u : string) (l l1 : log)
    (reverse : pointer reversepath) :
  locate_mapping REVERSE_COOKIE config headers u l = Returns (None, reverse, l1) ->
  reverseonly config = false ->
  reversemagic config = false ->
  reverse_rewrite_url REVERSE_COOKIE config connptr headers u l =
  Returns (None, connptr,
           log_message LOG_CONN "Rewriting URL: %s -> %s" [Some u; None] l1).
Proof.
  intros H O C. unfold reverse_rewrite_url. rewrite H. simpl. rewrite O, C.
  reflexivity.
Qed.

Lemma no_rule_magic_forward (REVERSE_COOKIE : string) (config : config_s)
    (connptr : conn_s) (headers : hashmap_t) (u : string) (l l1 : log)
    (reverse : pointer reversepath) :
  locate_mapping REVERSE_COOKIE config headers u l = Returns (None, reverse, l1) ->
  reverseonly config = false ->
  reversemagic config = true ->
  reverse_rewrite_url REVERSE_COOKIE config connptr headers u l = Undefined.
Proof.
  intros H O C. unfold reverse_rewrite_url. rewrite H. simpl. rewrite O, C.
  destruct (no_rule_no_object _ _ _ _ _ _ _ H) as [-> | ->]; reflexivity.
Qed.

(** C5, at the input where the code leaves it: no rule matches "/zzz",
    reverse-only mode is off and the magic cookie is on; the function does
    not come back with "no rewrite": it reads [reverse->path] through the
    null pointer [reversepath_get] has just returned. *)
Theorem C5_no_match_forward_with_magic_cookie (REVERSE_COOKIE : string)
    (connptr : conn_s) (l : log) :
  reversepath_get spec_table "/zzz" = None /\
  reverse_rewrite_url REVERSE_COOKIE (Config spec_table true false None)
    connptr [] "/zzz" l = Undefined /\
  ~ passed_through connptr
      (reverse_rewrite_url REVERSE_COOKIE (Config spec_table true false None)
         connptr [] "/zzz" l).
Proof.
  assert (E : reverse_rewrite_url REVERSE_COOKIE
                (Config spec_table true false None) connptr [] "/zzz" l =
              Undefined) by reflexivity.
  split; [reflexivity|]. split; [exact E|].
  rewrite E. intros [l' H]. discriminate.
Qed.

(** C7, at the input where the code leaves it: the magic cookie is on,
    reverse-only mode is off, the direct match fails and the cookie names a
    path no rule has; no rule was produced, yet the recording step reads
    [reverse->path], through a null pointer. *)
Theorem C7_recording_step_without_rule (connptr : conn_s) (l : log) :
  locate_mapping "tinyp" (Config spec_table true false None)
    [("Cookie", "tinyp=/nothing")] "/zzz" l = Returns (None, NULL, l) /\
  arrow (@NULL reversepath) path = Undefined /\
  reverse_rewrite_url "tinyp" (Config spec_table true false None) connptr
    [("Cookie", "tinyp=/nothing")] "/zzz" l = Undefined.
Proof. repeat split. Qed.

(** A request target that does not start with a slash is refused, not passed
    through, when reverse-only mode is on. *)
Lemma C6_counterexample : ~ absolute_uri_always_passed_through.
Proof.
  intros H.
  assert (N : ~ starts_with_slash "http://example.org/a").
  { intros [rest E]. discriminate. }
  destruct (H "tinyp" (Config spec_table false true None) (Conn None None) []
              "http://example.org/a" [] N) as [l' E].
  discriminate.
Qed.

(** C6, amended: a request URL that does not start with a slash is never
    rewritten, whatever the table, the headers and the flags are; it is
    refused with the 400 error when reverse-only mode is on, and passed
    through with the connection untouched when reverse-only mode and the
    magic cookie are both off. *)
Theorem C6_absolute_uri_never_rewritten (REVERSE_COOKIE : string)
    (config : config_s) (connptr : conn_s) (headers : hashmap_t)
    (u : string) (l : log) :
  ~ starts_with_slash u ->
  (forall rewrite_url connptr' l',
     reverse_rewrite_url REVERSE_COOKIE config connptr headers u l <>
     Returns (Some rewrite_url, connptr', l')) /\
  (reverseonly config = true ->
   reverse_rewrite_url REVERSE_COOKIE config connptr headers u l =
   Returns (None,
            indicate_http_error connptr 400 "Bad Request"
              [("detail", "Request has an invalid URL"); ("url", u)],
            log_message LOG_ERR "Bad request" [] l)) /\
  (reverseonly config = false -> reversemagic config = false ->
   reverse_rewrite_url REVERSE_COOKIE config connptr headers u l =
   Returns (None, connptr,
            log_message LOG_CONN "Rewriting URL: %s -> %s" [Some u; None] l)).
Proof.
  intros N.
  pose proof (locate_absolute REVERSE_COOKIE config headers u l N) as L.
  split; [|split].
  - intros rewrite_url connptr' l'. unfold reverse_rewrite_url. rewrite L.
    simpl. destruct (reverseonly config), (reversemagic config); discriminate.
  - apply no_rule_reverse_only with (reverse := Indeterminate). exact L.
  - apply no_rule_forward with (reverse := Indeterminate). exact L.
Qed.

Lemma C6_witness :
  reverse_rewrite_url "tinyp" (Config spec_table false false None)
    (Conn None None) [("Cookie", "tinyp=/bar")] "http://example.org/a" [] =
  Returns (None, Conn None None,
           log_message LOG_CONN "Rewriting URL: %s -> %s"
             [Some "http://example.org/a"; None] []).
Proof.
  apply (C6_absolute_uri_never_rewritten "tinyp"
           (Config spec_table false false None) (Conn None None)
           [("Cookie", "tinyp=/bar")] "http://example.org/a" []).
  - intros [rest E]. discriminate.
  - reflexivity.
  - reflexivity.
Defined.

(** ** The socket layer *)

Section SockProps.

Context {W : Type} {K : Kernel W}.

Lemma mbind_done {A B : Type} (m : M W A) (k : A -> M W B) (s s' : proc W)
    (a : A) :
  m s = Done a s' -> mbind m k s = k a s'.
Proof. intros H. unfold mbind. rewrite H. reflexivity. Qed.

Lemma sys_done {A : Type} (call : W -> A * W) (s : proc W) (a : A) (w : W) :
  call (world s) = (a, w) -> sys call s = Done a (Proc w (logged s)).
Proof. intros H. unfold sys. rewrite H. reflexivity. Qed.

Lemma bind_socket_loop_done (sockfd : Z) (ai_next : list addrinfo) :
  forall (res : addrinfo) (s : proc W),
  exists r s',
    bind_socket_loop sockfd res ai_next s = Done r s' /\
    logged s' = logged s.
Proof.
  induction ai_next as [|res' ai_next IH]; intros res s; simpl;
    unfold mbind, sys, ret;
    destruct (bind sockfd (ai_addr res) (world s)) as [r w];
    destruct (r =? 0)%Z; eauto.
  destruct (IH res' (Proc w (logged s))) as [r' [s' [E L]]]. eauto.
Qed.

(** [bind_socket] returns, with nothing logged, once its two assertions
    hold; its result is the descriptor or -1. *)
Lemma bind_socket_done (sockfd : Z) (addr : string) (s : proc W) :
  (0 <= sockfd)%Z -> addr <> "" ->
  exists r s',
    bind_socket sockfd addr s = Done r s' /\
    logged s' = logged s /\ (r = sockfd \/ r = (-1)%Z).
Proof.
  intros Hfd Haddr. unfold bind_socket, mbind, assert, sys, ret.
  apply Z.leb_le in Hfd. rewrite Hfd.
  destruct addr as [|c addr]; [contradiction|]. simpl (negb _). cbv iota.
  destruct (getaddrinfo (String c addr) None stream_hints (world s))
    as [[[res ai_next]|] w]; [|eauto 6].
  destruct (bind_socket_loop_done sockfd ai_next res (Proc w (logged s)))
    as [r [s' [E L]]].
  rewrite E. destruct r; eauto 6.
Qed.

(** One pass through the loop body is one attempt at the candidate. *)
Lemma opensock_body_attempt (config : config_s) (bind_to : option string)
    (c : addrinfo) (s : proc W) :
  (forall addr, chosen_bind config bind_to = Some addr -> addr <> "") ->
  exists s' r sockfd,
    attempt (chosen_bind config bind_to) c s s' r /\
    opensock_body config bind_to c s =
      Done (match r with Some _ => true | None => false end, sockfd) s' /\
    (forall fd, r = Some fd -> sockfd = fd /\ (0 <= fd)%Z) /\
    logged s' = logged s.
Proof.
  intros Hb. unfold opensock_body.
  destruct (socket (ai_family c) (ai_socktype c) (ai_protocol c) (world s))
    as [fd w] eqn:Es.
  rewrite (mbind_done _ _ _ _ _ (sys_done _ _ _ _ Es)).
  destruct (fd <? 0)%Z eqn:Efd.
  - apply Z.ltb_lt in Efd. exists (Proc w (logged s)), None, fd.
    split; [eapply attempt_no_socket; eauto|].
    split; [reflexivity|]. split; [discriminate | reflexivity].
  - apply Z.ltb_ge in Efd.
    assert (Hstep :
      exists s1 ok,
        (match bind_to with
         | Some addr =>
             mbind (bind_socket fd addr)
               (fun b => if (b <? 0)%Z
                         then mbind (sys (close fd)) (fun _ => ret false)
                         else ret true)
         | None =>
             match bind_address config with
             | Some addr =>
                 mbind (bind_socket fd addr)
                   (fun b => if (b <? 0)%Z
                             then mbind (sys (close fd)) (fun _ => ret false)
                             else ret true)
             | None => ret true
             end
         end) (Proc w (logged s)) = Done ok s1 /\
        logged s1 = logged s /\
        (ok = true -> bound (chosen_bind config bind_to) fd (Proc w (logged s)) s1) /\
        (ok = false -> attempt (chosen_bind config bind_to) c s s1 None)).
    { assert (G : forall addr,
                chosen_bind config bind_to = Some addr ->
                exists s1 ok,
                  mbind (bind_socket fd addr)
                    (fun b => if (b <? 0)%Z
                              then mbind (sys (close fd)) (fun _ => ret false)
                              else ret true) (Proc w (logged s)) = Done ok s1 /\
                  logged s1 = logged s /\
                  (ok = true ->
                   bound (chosen_bind config bind_to) fd (Proc w (logged s)) s1) /\
                  (ok = false -> attempt (chosen_bind config bind_to) c s s1 None)).
      { intros addr Hc.
        destruct (bind_socket_done fd addr (Proc w (logged s)) Efd (Hb addr Hc))
          as [r [s2 [E [L V]]]].
        unfold mbind at 1. rewrite E.
        destruct (r <? 0)%Z eqn:Er.
        - apply Z.ltb_lt in Er. unfold mbind, sys, ret.
          destruct (close fd (world s2)) as [rc w2] eqn:Ec.
          exists (Proc w2 (logged s2)), false.
          split; [reflexivity|]. split; [exact L|].
          split; [discriminate|]. intros _.
          eapply attempt_bind_failed; eauto.
        - apply Z.ltb_ge in Er. exists s2, true.
          split; [reflexivity|]. split; [exact L|].
          split; [|discriminate]. intros _. rewrite Hc. simpl. eauto. }
      destruct bind_to as [addr|].
      - apply G. reflexivity.
      - simpl in *. destruct (bind_address config) as [addr|].
        + apply G. reflexivity.
        + exists (Proc w (logged s)), true.
          split; [reflexivity|]. split; [reflexivity|].
          split; [intros _; reflexivity | discriminate]. }
    destruct Hstep as [s1 [ok [Estep [L1 [Hok Hko]]]]].
    rewrite (mbind_done _ _ _ _ _ Estep).
    destruct ok; cbv beta; simpl (negb _); cbv iota.
    + destruct (connect fd (ai_addr c) (world s1)) as [rc w2] eqn:Ec.
      rewrite (mbind_done _ _ _ _ _ (sys_done _ _ _ _ Ec)).
      destruct (rc =? 0)%Z eqn:Erc.
      * apply Z.eqb_eq in Erc. subst rc.
        exists (Proc w2 (logged s1)), (Some fd), fd.
        split; [eapply attempt_connected; eauto|].
        split; [reflexivity|]. split; [|exact L1].
        intros fd' H. injection H as <-. auto.
      * apply Z.eqb_neq in Erc.
        destruct (close fd w2) as [rc' w3] eqn:Ecl.
        rewrite (mbind_done _ _ (Proc w2 (logged s1)) _ _
                   (sys_done _ (Proc w2 (logged s1)) _ _ Ecl)).
        exists (Proc w3 (logged s1)), None, fd.
        split; [eapply attempt_connect_failed; eauto|].
        split; [reflexivity|]. split; [discriminate | exact L1].
    + exists s1, None, fd. split; [auto|].
      split; [reflexivity|]. split; [discriminate | exact L1].
Qed.

(** An attempt, and so the whole walk over the candidates, has one outcome
    only. *)
Lemma attempt_functional (b : option string) (c : addrinfo)
    (s s1 s2 : proc W) (r1 r2 : option Z) :
  attempt b c s s1 r1 -> attempt b c s s2 r2 -> s1 = s2 /\ r1 = r2.
Proof.
  assert (B : forall fd s0 sa sb, bound b fd s0 sa -> bound b fd s0 sb -> sa = sb).
  { unfold bound. destruct b as [addr|].
    - intros fd s0 sa sb [ra [Ea _]] [rb [Eb _]]. congruence.
    - intros; congruence. }
  assert (F : forall fd s0 sa addr r,
            b = Some addr -> bind_socket fd addr s0 = Done r sa -> (r < 0)%Z ->
            forall sb, bound b fd s0 sb -> False).
  { intros fd s0 sa addr r -> E Hr sb [r' [E' Hr']].
    rewrite E in E'. injection E' as -> _. lia. }
  intros H1 H2.
  destruct H1; inversion H2; subst;
    repeat match goal with
           | H : ?x = (_, _), H' : ?x = (_, _) |- _ =>
               rewrite H in H'; injection H' as ? ?; subst
           end;
    try lia; try congruence; try (exfalso; eauto; fail).
  all: try (split; [|reflexivity]).
  all: try match goal with
           | Ha : bound _ ?fd ?s0 ?sa, Hb : bound _ ?fd ?s0 ?sb |- _ =>
               pose proof (B fd s0 sa sb Ha Hb); subst
           end.
  all: repeat match goal with
           | H : ?x = (_, _), H' : ?x = (_, _) |- _ =>
               rewrite H in H'; injection H' as ? ?; subst
           | H : ?x = Done _ _, H' : ?x = Done _ _ |- _ =>
               rewrite H in H'; injection H' as ? ?; subst
           | H : Some _ = Some _ |- _ => injection H as ?; subst
           end.
  all: try reflexivity; try lia; try congruence; try (split; reflexivity).
Qed.

Lemma first_connected_functional (b : option string) (cs : list addrinfo)
    (s s1 s2 : proc W) (r1 r2 : option (addrinfo * Z)) :
  first_connected b cs s s1 r1 -> first_connected b cs s s2 r2 ->
  s1 = s2 /\ r1 = r2.
Proof.
  intros H1. revert s2 r2.
  induction H1 as [s | c cs s sa sb r Ha Hrest IH | c cs s sa fd Ha];
    intros s2 r2 H2; inversion H2; subst.
  - auto.
  - match goal with
    | H : attempt b c s _ None |- _ =>
        destruct (attempt_functional _ _ _ _ _ _ _ Ha H) as [-> _]
    end.
    apply IH. assumption.
  - match goal with
    | H : attempt b c s _ (Some _) |- _ =>
        destruct (attempt_functional _ _ _ _ _ _ _ Ha H) as [_ D]; discriminate
    end.
  - match goal with
    | H : attempt b c s _ None |- _ =>
        destruct (attempt_functional _ _ _ _ _ _ _ Ha H) as [_ D]; discriminate
    end.
  - match goal with
    | H : attempt b c s _ (Some _) |- _ =>
        destruct (attempt_functional _ _ _ _ _ _ _ Ha H) as [-> D]
    end.
    injection D as ->. auto.
Qed.

(** The loop stops at the first candidate whose attempt succeeds. *)
Lemma opensock_loop_first (config : config_s) (bind_to : option string) :
  (forall addr, chosen_bind config bind_to = Some addr -> addr <> "") ->
  forall (cs : list addrinfo) (c : addrinfo) (s : proc W),
  exists s' r sockfd,
    first_connected (chosen_bind config bind_to) (c :: cs) s s' r /\
    opensock_loop config bind_to c cs s = Done (option_map fst r, sockfd) s' /\
    (forall c' fd, r = Some (c', fd) -> sockfd = fd /\ (0 <= fd)%Z) /\
    logged s' = logged s.
Proof.
  intros Hb. induction cs as [|c' cs IH]; intros c s;
    destruct (opensock_body_attempt config bind_to c s Hb)
      as [s1 [r [fd [Hatt [Ebody [Hfd L]]]]]];
    simpl opensock_loop; rewrite (mbind_done _ _ _ _ _ Ebody);
    destruct r as [fd'|]; cbv beta iota.
  - exists s1, (Some (c, fd')), fd. split; [apply first_hit; exact Hatt|].
    split; [reflexivity|]. split; [|exact L].
    intros c0 fd0 H. injection H as _ <-. apply Hfd. reflexivity.
  - exists s1, None, fd. split; [eapply first_skip; [exact Hatt | constructor]|].
    split; [reflexivity|]. split; [discriminate | exact L].
  - exists s1, (Some (c, fd')), fd. split; [apply first_hit; exact Hatt|].
    split; [reflexivity|]. split; [|exact L].
    intros c0 fd0 H. injection H as _ <-. apply Hfd. reflexivity.
  - destruct (IH c' s1) as [s2 [r [fd2 [Hfc [Eloop [Hfd2 L2]]]]]].
    exists s2, r, fd2. split; [eapply first_skip; eassumption|].
    split; [exact Eloop|]. split; [exact Hfd2 | congruence].
Qed.

(** The call depends on its bind argument and on the configuration only
    through the address chosen from them. *)
Lemma opensock_body_chosen (config config' : config_s)
    (bind_to bind_to' : option string) (c : addrinfo) :
  chosen_bind config bind_to = chosen_bind config' bind_to' ->
  opensock_body config bind_to c = opensock_body config' bind_to' c.
Proof.
  unfold opensock_body. intros H.
  destruct bind_to as [a|], bind_to' as [a'|]; simpl in H.
  - injection H as ->. reflexivity.
  - rewrite <- H. reflexivity.
  - rewrite H. reflexivity.
  - rewrite H. reflexivity.
Qed.

Lemma opensock_loop_chosen (config config' : config_s)
    (bind_to bind_to' : option string) :
  chosen_bind config bind_to = chosen_bind config' bind_to' ->
  forall (cs : list addrinfo) (c : addrinfo) (s : proc W),
    opensock_loop config bind_to c cs s = opensock_loop config' bind_to' c cs s.
Proof.
  intros H. induction cs as [|c' cs IH]; intros c s; simpl; unfold mbind;
    rewrite (opensock_body_chosen config config' bind_to bind_to' c H);
    destruct (opensock_body config' bind_to' c s) as [[[|] fd] s1|];
    try reflexivity.
  apply IH.
Qed.

Lemma opensock_chosen (config config' : config_s)
    (bind_to bind_to' : option string) (host : string) (port : Z)
    (s : proc W) :
  chosen_bind config bind_to = chosen_bind config' bind_to' ->
  opensock config host port bind_to s = opensock config' host port bind_to' s.
Proof.
  intros H. unfold opensock, mbind.
  destruct (assert (0 <? port)%Z s) as [[] s0|]; [|reflexivity].
  destruct (sys (getaddrinfo host (Some (portstr port)) stream_hints) s0)
    as [[[c cs]|] s1|]; try reflexivity.
  rewrite (opensock_loop_chosen config config' bind_to bind_to' H cs c s1).
  reflexivity.
Qed.

End SockProps.

(** C8: for a positive port and a bind address that, when there is one, is
    not empty, [opensock] resolves the host and tries the candidates in the
    order of the resolution: a candidate without a socket is skipped, a
    failed bind or a failed connect closes the socket and moves on.  It
    returns the descriptor of the first candidate that connects, with nothing
    logged for the candidates before it, and returns -1 with one error logged
    only when every candidate failed or the resolution did. *)
Theorem C8_first_connecting_candidate {W : Type} {K : Kernel W}
    (config : config_s) (host : string) (port : Z) (bind_to : option string)
    (s : proc W) :
  (0 < port)%Z ->
  (forall addr, chosen_bind config bind_to = Some addr -> addr <> "") ->
  match getaddrinfo host (Some (portstr port)) stream_hints (world s) with
  | (None, w) =>
      opensock config host port bind_to s =
      Done (-1)%Z
        (Proc w (log_message LOG_ERR "opensock: Could not retrieve info for %s"
                   [Some host] (logged s)))
  | (Some (c, cs), w) =>
      exists s' r,
        first_connected (chosen_bind config bind_to) (c :: cs)
          (Proc w (logged s)) s' r /\
        match r with
        | Some (_, fd) =>
            (0 <= fd)%Z /\
            opensock config host port bind_to s = Done fd s' /\
            logged s' = logged s
        | None =>
            opensock config host port bind_to s =
            Done (-1)%Z
              (Proc (world s')
                 (log_message LOG_ERR
                    "opensock: Could not establish a connection to %s"
                    [Some host] (logged s)))
        end
  end.
Proof.
  intros Hport Hb. unfold opensock.
  assert (A : assert (0 <? port)%Z s = Done tt s).
  { unfold assert. apply Z.ltb_lt in Hport. rewrite Hport. reflexivity. }
  rewrite (mbind_done _ _ _ _ _ A).
  destruct (getaddrinfo host (Some (portstr port)) stream_hints (world s))
    as [[[c cs]|] w] eqn:Eg;
    rewrite (mbind_done _ _ _ _ _ (sys_done _ _ _ _ Eg)).
  - destruct (opensock_loop_first config bind_to Hb cs c (Proc w (logged s)))
      as [s' [r [fd [Hfc [Eloop [Hfd L]]]]]].
    exists s', r. split; [exact Hfc|].
    rewrite (mbind_done _ _ _ _ _ Eloop).
    destruct r as [[c' fd']|]; simpl.
    + destruct (Hfd c' fd' eq_refl) as [<- Hpos]. auto.
    + unfold mbind, log_msg, ret. rewrite L. reflexivity.
  - reflexivity.
Qed.

Lemma C8_witness :
  match
    getaddrinfo "backend" (Some (portstr 80)) stream_hints (world demo_proc)
  with
  | (None, w) =>
      opensock plain_config "backend" 80 None demo_proc =
      Done (-1)%Z
        (Proc w (log_message LOG_ERR "opensock: Could not retrieve info for %s"
                   [Some "backend"] (logged demo_proc)))
  | (Some (c, cs), w) =>
      exists s' r,
        first_connected (chosen_bind plain_config None) (c :: cs)
          (Proc w (logged demo_proc)) s' r /\
        match r with
        | Some (_, fd) =>
            (0 <= fd)%Z /\
            opensock plain_config "backend" 80 None demo_proc = Done fd s' /\
            logged s' = logged demo_proc
        | None =>
            opensock plain_config "backend" 80 None demo_proc =
            Done (-1)%Z
              (Proc (world s')
                 (log_message LOG_ERR
                    "opensock: Could not establish a connection to %s"
                    [Some "backend"] (logged demo_proc)))
        end
  end.
Proof.
  apply (C8_first_connecting_candidate plain_config "backend" 80 None demo_proc).
  - reflexivity.
  - intros addr H. discriminate.
Defined.

(** The example of the specification: the first endpoint refuses, the second
    accepts; the descriptor of the second is returned and nothing is
    logged. *)
Example second_candidate_example :
  exists s',
    opensock plain_config "backend" 80 None demo_proc = Done 4%Z s' /\
    logged s' = [] /\
    sim_trace (world s') =
    [SysGetaddrinfo "backend" (Some "80"); SysSocket AF_INET;
     SysConnect 3 "10.0.0.1"; SysClose 3; SysSocket AF_INET;
     SysConnect 4 "10.0.0.2"].
Proof. eexists. split; [vm_compute; reflexivity | split; reflexivity]. Qed.

(** C10: a call with an explicit bind address behaves the same whatever the
    configured default is, and a call without one behaves as a call with the
    default as its explicit address; each candidate's socket is bound to that
    one address, and a failed bind is not retried with the other. *)
Theorem C10_one_bind_source_per_call {W : Type} {K : Kernel W}
    (config : config_s) (host : string) (port : Z) (s : proc W) :
  (forall addr config',
     opensock config host port (Some addr) s =
     opensock config' host port (Some addr) s) /\
  (forall addr c config',
     opensock_body config (Some addr) c s =
     opensock_body config' (Some addr) c s) /\
  (forall addr config',
     bind_address config = Some addr ->
     opensock config host port None s =
     opensock config' host port (Some addr) s) /\
  (exists s',
     opensock (Config [] false false (Some "192.168.0.9")) "backend" 80
       (Some "192.168.0.7") demo_proc = Done (-1)%Z s' /\
     sim_trace (world s') =
     [SysGetaddrinfo "backend" (Some "80");
      SysSocket AF_INET; SysGetaddrinfo "192.168.0.7" None;
      SysBind 3 "192.168.0.7"; SysClose 3;
      SysSocket AF_INET; SysGetaddrinfo "192.168.0.7" None;
      SysBind 4 "192.168.0.7"; SysClose 4]).
Proof.
  split; [|split; [|split]].
  - intros addr config'. apply opensock_chosen. reflexivity.
  - intros addr c config'.
    rewrite (opensock_body_chosen config config' (Some addr) (Some addr) c);
      reflexivity.
  - intros addr config' H. apply opensock_chosen. exact H.
  - eexists. split; [vm_compute; reflexivity | reflexivity].
Qed.

Lemma C10_witness :
  opensock (Config [] false false (Some "192.168.0.9")) "six" 80 None demo_proc =
  opensock plain_config "six" 80 (Some "192.168.0.9") demo_proc.
Proof.
  apply (proj1 (proj2 (proj2
           (C10_one_bind_source_per_call
              (Config [] false false (Some "192.168.0.9")) "six" 80 demo_proc)))
           "192.168.0.9" plain_config).
  reflexivity.
Defined.

(** A peer whose address has no name: the numeric address is there, and the
    return value is the resolver's error, not 0. *)
Lemma C9_counterexample : ~ peer_info_fails_only_without_address.
Proof.
  intros H.
  destruct (H sim sim_kernel 16%nat 1024%nat 7%Z demo_proc
              (Proc (record (SysGetnameinfo "203.0.113.5")
                       (record (SysGetpeername 7) demo_world)) [])
              EAI_NONAME "203.0.113.5" "[unknown]" eq_refl)
    as [E | [sa [E1 E2]]].
  - discriminate.
  - discriminate.
  - injection E1 as <-. discriminate.
Qed.

(** C9, amended: [getpeer_information] puts the sentinel in the host name
    before any lookup, so that every return other than 0 leaves it there; it
    returns -1 when the peer address or its numeric form cannot be had; once
    the numeric form is had it is reported whatever the name lookup does, and
    the return value is the status of that lookup: 0 with the name, or the
    resolver's error with the sentinel. *)
Theorem C9_peer_information {W : Type} {K : Kernel W}
    (IP_LENGTH HOSTNAME_LENGTH : nat) (fd : Z) (s : proc W) :
  (0 <= fd)%Z -> (10 <= HOSTNAME_LENGTH)%nat ->
  exists rc ipaddr string_addr s',
    getpeer_information IP_LENGTH HOSTNAME_LENGTH fd s =
      Done (rc, ipaddr, string_addr) s' /\
    logged s' = logged s /\
    (rc <> 0%Z -> string_addr = "[unknown]") /\
    match getpeername fd (world s) with
    | (None, w) => rc = (-1)%Z /\ s' = Proc w (logged s)
    | (Some sa, w) =>
        match get_ip_string sa IP_LENGTH with
        | None => rc = (-1)%Z /\ s' = Proc w (logged s)
        | Some ip =>
            ipaddr = ip /\
            rc = fst (fst (getnameinfo sa HOSTNAME_LENGTH w)) /\
            (rc = 0%Z ->
             string_addr = snd (fst (getnameinfo sa HOSTNAME_LENGTH w)))
        end
    end.
Proof.
  intros Hfd Hlen. unfold getpeer_information.
  assert (A : assert (0 <=? fd)%Z s = Done tt s).
  { unfold assert. apply Z.leb_le in Hfd. rewrite Hfd. reflexivity. }
  rewrite (mbind_done _ _ _ _ _ A).
  assert (S : CStr.strlcpy "[unknown]" HOSTNAME_LENGTH = "[unknown]").
  { unfold CStr.strlcpy. apply take_all. simpl. lia. }
  rewrite S.
  destruct (getpeername fd (world s)) as [[sa|] w] eqn:Ep;
    rewrite (mbind_done _ _ _ _ _ (sys_done _ _ _ _ Ep)).
  - destruct (get_ip_string sa IP_LENGTH) as [ip|].
    + destruct (getnameinfo sa HOSTNAME_LENGTH w) as [[rc host] w'] eqn:En.
      rewrite (mbind_done _ _ (Proc w (logged s)) _ _
                 (sys_done _ (Proc w (logged s)) _ _ En)).
      exists rc, ip, (if (rc =? 0)%Z then host else "[unknown]"),
        (Proc w' (logged s)).
      split; [reflexivity|]. split; [reflexivity|]. split.
      * intros N. apply Z.eqb_neq in N. rewrite N. reflexivity.
      * split; [reflexivity|]. split; [reflexivity|].
        intros ->. reflexivity.
    + exists (-1)%Z, "", "[unknown]", (Proc w (logged s)).
      repeat split; reflexivity.
  - exists (-1)%Z, "", "[unknown]", (Proc w (logged s)).
    repeat split; reflexivity.
Qed.

Lemma C9_witness :
  exists rc ipaddr string_addr s',
    getpeer_information 16 1024 7 demo_proc =
      Done (rc, ipaddr, string_addr) s' /\
    logged s' = logged demo_proc /\
    (rc <> 0%Z -> string_addr = "[unknown]") /\
    match getpeername 7 (world demo_proc) with
    | (None, w) => rc = (-1)%Z /\ s' = Proc w (logged demo_proc)
    | (Some sa, w) =>
        match get_ip_string sa 16 with
        | None => rc = (-1)%Z /\ s' = Proc w (logged demo_proc)
        | Some ip =>
            ipaddr = ip /\
            rc = fst (fst (getnameinfo sa 1024 w)) /\
            (rc = 0%Z -> string_addr = snd (fst (getnameinfo sa 1024 w)))
        end
    end.
Proof.
  apply (C9_peer_information 16 1024 7 demo_proc).
  - discriminate.
  - repeat constructor.
Defined.

(** The example of the specification, with the return value the code gives:
    the numeric address and the sentinel are in the buffers, and the
    resolver's error is returned. *)
Example unnamed_peer_example :
  exists s',
    getpeer_information 16 1024 7 demo_proc =
    Done (EAI_NONAME, "203.0.113.5", "[unknown]") s'.
Proof. eexists. vm_compute. reflexivity. Qed.

(** * Further properties of the rule table *)

Lemma string_app_inv_head (a b c : string) :
  (a ++ b)%string = (a ++ c)%string -> b = c.
Proof.
  induction a as [|x a IH]; simpl; intros H; [exact H|].
  injection H as H. apply IH. exact H.
Qed.

Lemma reversepath_add_stored (p : option string) (u : string)
    (config : config_s) (l : log) :
  (forall p', p = Some p' -> starts_with_slash p') ->
  contains u "://" ->
  reversepath_add true p (Some u) (config, l) =
  (set_reversepath_list
     (ReversePath (stored_path p) u :: reversepath_list config) config,
   log_message LOG_INFO "Added reverse proxy rule: %s -> %s"
     [Some (stored_path p); Some u] l).
Proof.
  intros Hp Hu. destruct p as [p'|].
  - apply reversepath_add_accepted; auto.
  - apply contains_iff_strstr in Hu. destruct Hu as [k Hu].
    unfold reversepath_add. rewrite Hu. reflexivity.
Qed.

(** Every call has one of two effects: the rule is put at the head of the
    list and one LOG_INFO entry is written, or the configuration is left
    alone and one entry of another level is written. *)
Lemma reversepath_add_effect (heap : bool) (p u : option string)
    (config : config_s) (l : log) :
  exists e,
    snd (reversepath_add heap p u (config, l)) = l ++ [e] /\
    ((is_info e = true /\
      exists u', u = Some u' /\ heap = true /\ contains u' "://" /\
        (forall p', p = Some p' -> starts_with_slash p') /\
        fst (reversepath_add heap p u (config, l)) =
        set_reversepath_list
          (ReversePath (stored_path p) u' :: reversepath_list config) config) \/
     (is_info e = false /\
      fst (reversepath_add heap p u (config, l)) = config)).
Proof.
  unfold reversepath_add, log_message.
  destruct u as [u'|]; [|eexists; split; [reflexivity | right; split; reflexivity]].
  destruct (CStr.strstr u' "://") as [k|] eqn:E;
    [|eexists; split; [reflexivity | right; split; reflexivity]].
  assert (C : contains u' "://") by (apply contains_iff_strstr; eauto).
  destruct p as [p'|].
  - destruct (Ascii.eqb (CStr.deref p') slash) eqn:Dp; simpl;
      [|eexists; split; [reflexivity | right; split; reflexivity]].
    destruct heap; simpl;
      [|eexists; split; [reflexivity | right; split; reflexivity]].
    eexists; split; [reflexivity|]. left. split; [reflexivity|].
    exists u'. apply deref_slash in Dp.
    repeat split; auto. intros q H. injection H as <-. exact Dp.
  - destruct heap; simpl;
      [|eexists; split; [reflexivity | right; split; reflexivity]].
    eexists; split; [reflexivity|]. left. split; [reflexivity|].
    exists u'. repeat split; auto. intros q H. discriminate.
Qed.

(** X1: a rule handed to [reversepath_add] in valid form (the path, when
    given, starting with a slash; the URL with a scheme separator; memory
    available) is served at once: for every request made of its path and a
    rest, [reversepath_get] returns the new rule, whatever older rules the
    list holds, and [reverse_rewrite_url] returns the rule's URL followed by
    the rest, whatever the headers and the flags are. *)
Theorem added_rule_is_served (REVERSE_COOKIE : string) (config : config_s)
    (connptr : conn_s) (headers : hashmap_t) (l l' : log)
    (p : option string) (u rest : string) :
  (forall p', p = Some p' -> starts_with_slash p') ->
  contains u "://" ->
  let config' := fst (reversepath_add true p (Some u) (config, l)) in
  let request := (stored_path p ++ rest)%string in
  reversepath_get (reversepath_list config') request =
    Some (ReversePath (stored_path p) u) /\
  reverse_rewrite_url REVERSE_COOKIE config' connptr headers request l' =
    Returns (Some (u ++ rest)%string,
             (if reversemagic config
              then set_conn_reversepath connptr (stored_path p) else connptr),
             log_message LOG_CONN "Rewriting URL: %s -> %s"
               [Some request; Some (u ++ rest)%string] l').
Proof.
  intros Hp Hu. cbv zeta.
  rewrite (reversepath_add_stored p u config l Hp Hu). simpl fst.
  set (r := ReversePath (stored_path p) u).
  set (config' := set_reversepath_list (r :: reversepath_list config) config).
  assert (G : reversepath_get (reversepath_list config')
                (stored_path p ++ rest) = Some r).
  { unfold config'. simpl reversepath_list. rewrite reversepath_get_cons.
    assert (S : CStr.starts_with (stored_path p ++ rest) (path r) = true).
    { apply starts_with_iff. exists rest. reflexivity. }
    rewrite S. reflexivity. }
  split; [exact G|].
  assert (Hs : starts_with_slash (stored_path p ++ rest)).
  { destruct p as [p'|]; simpl.
    - destruct (Hp p' eq_refl) as [t ->]. exists (t ++ rest)%string. reflexivity.
    - exists rest. reflexivity. }
  destruct (locate_direct REVERSE_COOKIE config' headers _ l' r Hs G)
    as [rest' [Hu' Hl]].
  apply string_app_inv_head in Hu'. subst rest'.
  unfold reverse_rewrite_url. rewrite Hl. simpl obind.
  rewrite andb_false_r. simpl.
  destruct (reversemagic config); reflexivity.
Qed.

Lemma added_rule_is_served_witness :
  reversepath_get
    (reversepath_list
       (fst (reversepath_add true None (Some "http://all/")
               (Config spec_table true true None, []))))
    ("/" ++ "any/thing") = Some (ReversePath "/" "http://all/") /\
  reverse_rewrite_url "tinyp"
    (fst (reversepath_add true None (Some "http://all/")
            (Config spec_table true true None, [])))
    (Conn None None) [] ("/" ++ "any/thing") [] =
  Returns (Some ("http://all/" ++ "any/thing")%string,
           set_conn_reversepath (Conn None None) "/",
           log_message LOG_CONN "Rewriting URL: %s -> %s"
             [Some ("/" ++ "any/thing")%string;
              Some ("http://all/" ++ "any/thing")%string] []).
Proof.
  apply (added_rule_is_served "tinyp" (Config spec_table true true None)
           (Conn None None) [] [] [] None "http://all/" "any/thing").
  - intros p' H. discriminate.
  - exists 4%nat, "http", "all/". split; reflexivity.
Defined.

(** X2: a call of [reversepath_add] changes the answer of [reversepath_get]
    only for the URLs that begin with the path of the call: for every other
    URL the answer is the one the list gave before the call, whether the rule
    was stored or not. *)
Theorem add_leaves_other_urls_alone (heap : bool) (p u : option string)
    (config : config_s) (l : log) (request : string) :
  ~ is_prefix (stored_path p) request ->
  reversepath_get
    (reversepath_list (fst (reversepath_add heap p u (config, l)))) request =
  reversepath_get (reversepath_list config) request.
Proof.
  intros N.
  destruct (reversepath_add_effect heap p u config l)
    as [e [_ [[_ [u' [_ [_ [_ [_ E]]]]]] | [_ E]]]]; rewrite E;
    [|reflexivity].
  simpl reversepath_list. rewrite reversepath_get_cons. simpl path.
  destruct (CStr.starts_with request (stored_path p)) eqn:S; [|reflexivity].
  apply starts_with_iff in S. contradiction.
Qed.

Lemma add_leaves_other_urls_alone_witness :
  reversepath_get
    (reversepath_list
       (fst (reversepath_add true (Some "/img") (Some "http://i/")
               (Config spec_table false false None, []))))
    "/foo/x" =
  reversepath_get (reversepath_list (Config spec_table false false None))
    "/foo/x".
Proof.
  apply (add_leaves_other_urls_alone true (Some "/img") (Some "http://i/")
           (Config spec_table false false None) [] "/foo/x").
  intros [rest H]. discriminate.
Defined.

Lemma run_adds_app (calls : list add_call) (c : add_call)
    (st : config_s * log) :
  run_adds (calls ++ [c]) st =
  reversepath_add (add_heap c) (add_path c) (add_url c) (run_adds calls st).
Proof. unfold run_adds. rewrite fold_left_app. reflexivity. Qed.

(** X3: after any sequence of calls the list holds exactly the rules it held
    before and the rules some call handed in in valid form with memory
    available: nothing valid is dropped and nothing else gets in. *)
Theorem stored_iff_supplied (calls : list add_call) (config : config_s)
    (l : log) (r : reversepath) :
  In r (reversepath_list (fst (run_adds calls (config, l)))) <->
  In r (reversepath_list config) \/ exists c, In c calls /\ supplies c r.
Proof.
  induction calls as [|c calls IH] using rev_ind.
  - simpl. split; [auto | intros [H | [c [[] _]]]; exact H].
  - rewrite run_adds_app.
    destruct (run_adds calls (config, l)) as [config1 l1] eqn:R.
    simpl fst in IH.
    destruct (reversepath_add_effect (add_heap c) (add_path c) (add_url c)
                config1 l1)
      as [e [_ [[_ [u' [Eu [Eh [Cu [Hp E]]]]]] | [Ei E]]]]; rewrite E.
    + simpl reversepath_list. simpl In. rewrite IH. split.
      * intros [<- | [H | [c' [Hc Hs]]]].
        -- right. exists c. split; [apply in_or_app; right; left; reflexivity|].
           unfold supplies. simpl. repeat split; auto.
           destruct (add_path c) as [p'|] eqn:Ep; simpl; auto.
        -- auto.
        -- right. exists c'. split; [apply in_or_app; auto | exact Hs].
      * intros [H | [c' [Hc Hs]]]; [auto|].
        apply in_app_or in Hc. destruct Hc as [Hc | [Hcc | []]]; [|subst c'].
        -- right; right. exists c'. auto.
        -- left. destruct Hs as [_ [Hu [_ Hpath]]].
           rewrite Eu in Hu. injection Hu as ->.
           destruct r as [rp ru]. simpl in *. f_equal.
           destruct Hpath as [[-> ->] | [-> _]]; reflexivity.
    + rewrite IH. split.
      * intros [H | [c' [Hc Hs]]]; [auto|].
        right. exists c'. split; [apply in_or_app; auto | exact Hs].
      * intros [H | [c' [Hc Hs]]]; [auto|].
        apply in_app_or in Hc. destruct Hc as [Hc | [Hcc | []]]; [|subst c'].
        -- right. exists c'. auto.
        -- exfalso. destruct Hs as [Hh [Hu [Cu Hpath]]].
           assert (Hp : forall p', add_path c = Some p' -> starts_with_slash p').
           { intros p' Hp'. destruct Hpath as [[Hn _] | [Hs' S]].
             - rewrite Hn in Hp'. discriminate.
             - rewrite Hs' in Hp'. injection Hp' as <-. exact S. }
           pose proof (reversepath_add_stored (add_path c) (url r) config1 l1
                         Hp Cu) as A.
           rewrite <- Hh, <- Hu in A. rewrite A in E. simpl in E.
           apply (f_equal reversepath_list) in E. simpl in E.
           apply (f_equal (@List.length reversepath)) in E. simpl in E. lia.
Qed.

Lemma stored_iff_supplied_witness :
  In (ReversePath "/" "http://b/")
     (reversepath_list
        (fst (run_adds
                [AddCall true (Some "foo") (Some "http://a/");
                 AddCall true None (Some "http://b/")]
                (plain_config, [])))).
Proof.
  apply (proj2 (stored_iff_supplied
                  [AddCall true (Some "foo") (Some "http://a/");
                   AddCall true None (Some "http://b/")]
                  plain_config [] (ReversePath "/" "http://b/"))).
  right. exists (AddCall true None (Some "http://b/")).
  split; [right; left; reflexivity|].
  unfold supplies. simpl. repeat split; auto.
  exists 4%nat, "http", "b/". split; reflexivity.
Defined.

(** X4: a sequence of calls writes one log entry per call, in order after
    what was logged before; the list grows by as many rules as there are
    LOG_INFO entries among them; the flags and the bind address of the
    configuration are not touched. *)
Theorem one_log_entry_per_call (calls : list add_call) (config : config_s)
    (l : log) :
  exists entries,
    snd (run_adds calls (config, l)) = l ++ entries /\
    List.length entries = List.length calls /\
    List.length (reversepath_list (fst (run_adds calls (config, l)))) =
      (List.length (filter is_info entries)
       + List.length (reversepath_list config))%nat /\
    reversemagic (fst (run_adds calls (config, l))) = reversemagic config /\
    reverseonly (fst (run_adds calls (config, l))) = reverseonly config /\
    bind_address (fst (run_adds calls (config, l))) = bind_address config.
Proof.
  induction calls as [|c calls IH] using rev_ind.
  - exists []. simpl. rewrite app_nil_r. repeat split; reflexivity.
  - destruct IH as [entries [El [Elen [Ecount [Em [Eo Eb]]]]]].
    rewrite run_adds_app.
    destruct (run_adds calls (config, l)) as [config1 l1] eqn:R.
    simpl fst in El, Ecount, Em, Eo, Eb. simpl snd in El.
    destruct (reversepath_add_effect (add_heap c) (add_path c) (add_url c)
                config1 l1)
      as [e [Ee [[Ei [u' [_ [_ [_ [_ E]]]]]] | [Ei E]]]];
      exists (entries ++ [e]); rewrite Ee, E, El, <- app_assoc;
      (split; [reflexivity|]);
      rewrite filter_app, !length_app; simpl; rewrite Ei; simpl;
      repeat split; auto; lia.
Qed.

(** X5: a rule is never reached behind a rule whose path is a prefix of its
    own: for every URL the rear rule's path is a prefix of,
    [reversepath_get] answers with the front rule or with a rule stored
    before it.  Priority is by position in the list, not by the length of
    the match. *)
Theorem rule_behind_a_prefix_is_shadowed (before after : list reversepath)
    (front rear : reversepath) (request : string) :
  is_prefix (path front) (path rear) ->
  is_prefix (path rear) request ->
  exists r,
    reversepath_get (before ++ front :: after) request = Some r /\
    In r (before ++ [front]).
Proof.
  intros [t1 H1] [t2 H2].
  assert (Hf : CStr.starts_with request (path front) = true).
  { apply starts_with_iff. exists (t1 ++ t2)%string.
    rewrite H2, H1. apply string_app_assoc. }
  induction before as [|b before IH]; simpl app.
  - exists front. rewrite reversepath_get_cons, Hf. simpl. auto.
  - rewrite reversepath_get_cons.
    destruct (CStr.starts_with request (path b)).
    + exists b. simpl. auto.
    + destruct IH as [r [G I]]. exists r. simpl. auto.
Qed.

Lemma rule_behind_a_prefix_is_shadowed_witness :
  exists r,
    reversepath_get
      ([ReversePath "/img" "http://i/"]
       ++ ReversePath "/foo" "http://new/"
       :: [ReversePath "/foo/bar" "http://old/"]) "/foo/bar/x" = Some r /\
    In r ([ReversePath "/img" "http://i/"] ++ [ReversePath "/foo" "http://new/"]).
Proof.
  apply (rule_behind_a_prefix_is_shadowed
           [ReversePath "/img" "http://i/"]
           [ReversePath "/foo/bar" "http://old/"]
           (ReversePath "/foo" "http://new/")
           (ReversePath "/foo/bar" "http://old/") "/foo/bar/x").
  - exists "/bar". reflexivity.
  - exists "/x". reflexivity.
Defined.

(** * Further properties of the rewrite engine *)

(** The first half of [reverse_rewrite_url] always comes back: the copies
    stay inside the buffer and the cookie is read inside its bounds.  A
    rewritten URL comes with the rule it was made from, a rule of the list
    whose URL it begins with. *)
Lemma locate_mapping_returns (REVERSE_COOKIE : string) (config : config_s)
    (headers : hashmap_t) (u : string) (l : log) :
  exists rewrite_url reverse l1,
    locate_mapping REVERSE_COOKIE config headers u l =
      Returns (rewrite_url, reverse, l1) /\
    match rewrite_url with
    | Some w =>
        exists r, reverse = Ref r /\ In r (reversepath_list config) /\
                  is_prefix (url r) w
    | None => reverse = NULL \/ reverse = Indeterminate
    end.
Proof.
  destruct (Ascii.eqb (CStr.deref u) slash) eqn:Es.
  - pose proof Es as Hs. apply deref_slash in Hs.
    destruct (reversepath_get (reversepath_list config) u) as [r|] eqn:G.
    + destruct (locate_direct REVERSE_COOKIE config headers u l r Hs G)
        as [rest [_ E]].
      exists (Some (url r ++ rest)%string), (Ref r), l. split; [exact E|].
      exists r. split; [reflexivity|].
      split; [eapply reversepath_get_in; exact G | exists rest; reflexivity].
    + destruct (reversemagic config) eqn:Em;
        [|exists None, NULL, l; split; [|auto];
          unfold locate_mapping; rewrite Es, G, Em; reflexivity].
      destruct (hashmap_entry_by_key headers "cookie") as [cookie|] eqn:Ec;
        [|exists None, NULL, l; split; [|auto];
          unfold locate_mapping; rewrite Es, G, Em, Ec; reflexivity].
      destruct (CStr.strstr cookie (REVERSE_COOKIE ++ "=")) as [k|] eqn:Ek;
        [|exists None, NULL, l; split; [|auto];
          unfold locate_mapping; rewrite Es, G, Em, Ec, Ek; reflexivity].
      apply strstr_first in Ek.
      destruct Ek as [[pre [value [Hc Hk]]] Hmin]. subst k.
      rewrite (locate_cookie REVERSE_COOKIE config headers u l cookie pre value
                 Hs G Em Ec Hc Hmin).
      destruct (reversepath_get (reversepath_list config) value) as [r|] eqn:Gv.
      * eexists _, _, _. split; [reflexivity|].
        exists r. split; [reflexivity|].
        split; [eapply reversepath_get_in; exact Gv | eexists; reflexivity].
      * exists None, NULL, l. auto.
  - exists None, Indeterminate, l. split; [|auto].
    unfold locate_mapping. rewrite Es. reflexivity.
Qed.



(** X7: every rewritten URL [reverse_rewrite_url] returns begins with the
    URL of a rule of the list, so no request is sent to a backend that was
    not configured; with the magic cookie on, the path recorded in the
    connection is the path of that rule, and with it off the connection is
    returned as it came. *)
Theorem rewritten_url_is_a_configured_backend (REVERSE_COOKIE : string)
    (config : config_s) (connptr connptr' : conn_s) (headers : hashmap_t)
    (u w : string) (l l' : log) :
  reverse_rewrite_url REVERSE_COOKIE config connptr headers u l =
    Returns (Some w, connptr', l') ->
  exists r,
    In r (reversepath_list config) /\ is_prefix (url r) w /\
    connptr' = (if reversemagic config
                then set_conn_reversepath connptr (path r) else connptr).
Proof.
  destruct (locate_mapping_returns REVERSE_COOKIE config headers u l)
    as [rw [rev [l1 [E Hrw]]]].
  unfold reverse_rewrite_url. rewrite E. simpl obind.
  destruct rw as [w0|]; simpl is_null.
  - destruct Hrw as [r [-> [Hin Hpre]]]. rewrite andb_false_r.
    destruct (reversemagic config); simpl; intros H; injection H as -> <- _;
      exists r; auto.
  - rewrite andb_true_r.
    destruct (reverseonly config), (reversemagic config);
      destruct Hrw as [-> | ->]; simpl; discriminate.
Qed.

Lemma rewritten_url_is_a_configured_backend_witness :
  exists r,
    In r (reversepath_list (Config spec_table true false None)) /\
    is_prefix (url r) "http://b2/other" /\
    Conn (Some "/bar") None =
    (if reversemagic (Config spec_table true false None)
     then set_conn_reversepath (Conn None None) (path r) else Conn None None).
Proof.
  apply (rewritten_url_is_a_configured_backend "tinyp"
           (Config spec_table true false None) (Conn None None)
           (Conn (Some "/bar") None) [("cookie", "tinyp=/bar")]
           "/other" "http://b2/other" []
           [LogEntry LOG_INFO "Magical tracking cookie says: %s" [Some "/bar"];
            LogEntry LOG_CONN "Rewriting URL: %s -> %s"
              [Some "/other"; Some "http://b2/other"]]).
  reflexivity.
Defined.

(** X8: the 400 error is recorded only in reverse-only mode and only with a
    NULL return: with reverse-only mode off the error field of the
    connection is never written; with it on the function always returns, and
    either hands out a rewritten URL with the error field as it was, or
    returns NULL with the 400 error carrying the URL. *)
Theorem bad_request_only_in_reverse_only_mode (REVERSE_COOKIE : string)
    (config : config_s) (connptr : conn_s) (headers : hashmap_t)
    (u : string) (l : log) :
  (reverseonly config = false ->
   forall rewrite_url connptr' l',
     reverse_rewrite_url REVERSE_COOKIE config connptr headers u l =
       Returns (rewrite_url, connptr', l') ->
     error_field connptr' = error_field connptr) /\
  (reverseonly config = true ->
   exists rewrite_url connptr' l',
     reverse_rewrite_url REVERSE_COOKIE config connptr headers u l =
       Returns (rewrite_url, connptr', l') /\
     match rewrite_url with
     | Some _ => error_field connptr' = error_field connptr
     | None =>
         connptr' =
         indicate_http_error connptr 400 "Bad Request"
           [("detail", "Request has an invalid URL"); ("url", u)]
     end).
Proof.
  destruct (locate_mapping_returns REVERSE_COOKIE config headers u l)
    as [rw [rev [l1 [E Hrw]]]].
  unfold reverse_rewrite_url. rewrite E. simpl obind. split.
  - intros Ho rw' c' l'. rewrite Ho. simpl.
    destruct (reversemagic config); simpl.
    + destruct rev as [| |r]; simpl; [discriminate | discriminate|].
      intros H. injection H as _ <- _. reflexivity.
    + intros H. injection H as _ <- _. reflexivity.
  - intros Ho. rewrite Ho. simpl.
    destruct rw as [w|]; simpl is_null; cbv iota.
    + destruct Hrw as [r [-> _]].
      destruct (reversemagic config); simpl; eexists _, _, _;
        (split; [reflexivity|]); reflexivity.
    + eexists _, _, _. split; reflexivity.
Qed.

Lemma bad_request_only_in_reverse_only_mode_witness :
  error_field (Conn (Some "/foo") None) = error_field (Conn None None).
Proof.
  apply (proj1 (bad_request_only_in_reverse_only_mode "tinyp"
                  (Config spec_table true false None) (Conn None None) []
                  "/foo/x" [])
           eq_refl (Some "http://b/base/x") (Conn (Some "/foo") None)
           [LogEntry LOG_CONN "Rewriting URL: %s -> %s"
              [Some "/foo/x"; Some "http://b/base/x"]]).
  reflexivity.
Defined.

(** X9: the header map is looked at only when the URL starts with a slash,
    no rule matches it directly and the magic cookie is on: in every other
    case two header maps give the same result. *)
Theorem headers_matter_only_for_the_fallback (REVERSE_COOKIE : string)
    (config : config_s) (connptr : conn_s) (headers headers' : hashmap_t)
    (u : string) (l : log) :
  ~ starts_with_slash u \/
  reversepath_get (reversepath_list config) u <> None \/
  reversemagic config = false ->
  reverse_rewrite_url REVERSE_COOKIE config connptr headers u l =
  reverse_rewrite_url REVERSE_COOKIE config connptr headers' u l.
Proof.
  intros H.
  assert (E : locate_mapping REVERSE_COOKIE config headers u l =
              locate_mapping REVERSE_COOKIE config headers' u l).
  { unfold locate_mapping.
    destruct (Ascii.eqb (CStr.deref u) slash) eqn:Es; [|reflexivity].
    destruct (reversepath_get (reversepath_list config) u) eqn:G;
      [reflexivity|].
    destruct (reversemagic config) eqn:Em; [|reflexivity].
    exfalso. destruct H as [H | [H | H]].
    - apply H, deref_slash, Es.
    - apply H. reflexivity.
    - discriminate. }
  unfold reverse_rewrite_url. rewrite E. reflexivity.
Qed.

Lemma headers_matter_only_for_the_fallback_witness :
  reverse_rewrite_url "tinyp" (Config spec_table true false None)
    (Conn None None) [("Cookie", "tinyp=/bar")] "/foo/x" [] =
  reverse_rewrite_url "tinyp" (Config spec_table true false None)
    (Conn None None) [] "/foo/x" [].
Proof.
  apply (headers_matter_only_for_the_fallback "tinyp"
           (Config spec_table true false None) (Conn None None)
           [("Cookie", "tinyp=/bar")] [] "/foo/x" []).
  right; left. discriminate.
Defined.

(** X10: a rule stored under the path "/" (the path a call without a path
    gets) catches every request that starts with a slash, wherever it is in
    the list: such a request is always rewritten, never refused in
    reverse-only mode, and the function always returns. *)
Theorem root_rule_catches_every_request (REVERSE_COOKIE : string)
    (config : config_s) (connptr : conn_s) (headers : hashmap_t)
    (u : string) (l : log) (root : reversepath) :
  In root (reversepath_list config) ->
  path root = "/" ->
  starts_with_slash u ->
  exists r rest,
    In r (reversepath_list config) /\ u = (path r ++ rest)%string /\
    reverse_rewrite_url REVERSE_COOKIE config connptr headers u l =
    Returns (Some (url r ++ rest)%string,
             (if reversemagic config
              then set_conn_reversepath connptr (path r) else connptr),
             log_message LOG_CONN "Rewriting URL: %s -> %s"
               [Some u; Some (url r ++ rest)%string] l).
Proof.
  intros Hin Hroot Hs.
  destruct (reversepath_get (reversepath_list config) u) as [r|] eqn:G.
  - destruct (locate_direct REVERSE_COOKIE config headers u l r Hs G)
      as [rest [Hu E]].
    exists r, rest. split; [eapply reversepath_get_in; exact G|].
    split; [exact Hu|].
    unfold reverse_rewrite_url. rewrite E. simpl obind.
    rewrite andb_false_r. destruct (reversemagic config); reflexivity.
  - exfalso. apply reversepath_get_none in G.
    rewrite Forall_forall in G. apply (G root Hin).
    rewrite Hroot. destruct Hs as [t ->]. exists t. reflexivity.
Qed.

Lemma root_rule_catches_every_request_witness :
  exists r rest,
    In r (reversepath_list
            (Config (spec_table ++ [ReversePath "/" "http://all/"])
               true true None)) /\
    "/zzz" = (path r ++ rest)%string /\
    reverse_rewrite_url "tinyp"
      (Config (spec_table ++ [ReversePath "/" "http://all/"]) true true None)
      (Conn None None) [] "/zzz" [] =
    Returns (Some (url r ++ rest)%string,
             (if reversemagic
                   (Config (spec_table ++ [ReversePath "/" "http://all/"])
                      true true None)
              then set_conn_reversepath (Conn None None) (path r)
              else Conn None None),
             log_message LOG_CONN "Rewriting URL: %s -> %s"
               [Some "/zzz"; Some (url r ++ rest)%string] []).
Proof.
  apply (root_rule_catches_every_request "tinyp"
           (Config (spec_table ++ [ReversePath "/" "http://all/"])
              true true None)
           (Conn None None) [] "/zzz" [] (ReversePath "/" "http://all/")).
  - simpl. auto.
  - reflexivity.
  - exists "zzz". reflexivity.
Defined.

(** * Further properties of the socket layer *)

Lemma ports_from_sound (n : nat) :
  forall p q,
    ports_from n p = true -> (p <= q < p + Z.of_nat n)%Z ->
    portstr q = NilZero.string_of_int (Z.to_int q) /\
    port_round_trip q = true.
Proof.
  induction n as [|n IH]; intros p q H R; [lia|].
  simpl in H. apply andb_true_iff in H. destruct H as [H Hrest].
  apply andb_true_iff in H. destruct H as [H1 H2].
  destruct (Z.eq_dec p q) as [<- | N].
  - apply String.eqb_eq in H1. auto.
  - apply (IH (p + 1)%Z q Hrest). lia.
Qed.

(** X11: for every port from 1 to 99999, so for every TCP port, the service
    string [opensock] gives to [getaddrinfo] is the whole decimal rendering of
    the port (the six bytes of [portstr] cut nothing off), and reading it
    back gives the port. *)
Theorem service_string_is_the_port (port : Z) :
  (0 < port < 100000)%Z ->
  portstr port = NilZero.string_of_int (Z.to_int port) /\
  option_map Z.of_int (NilZero.int_of_string (portstr port)) = Some port.
Proof.
  intros R.
  assert (A : ports_from (Z.to_nat 99999) 1 = true) by (vm_compute; reflexivity).
  destruct (ports_from_sound _ 1%Z port A) as [E T]; [lia|].
  split; [exact E|].
  unfold port_round_trip in T.
  destruct (NilZero.int_of_string (portstr port)) as [d|]; [|discriminate].
  apply Z.eqb_eq in T. simpl. rewrite T. reflexivity.
Qed.

Lemma service_string_is_the_port_witness :
  portstr 8080 = NilZero.string_of_int (Z.to_int 8080) /\
  option_map Z.of_int (NilZero.int_of_string (portstr 8080)) = Some 8080%Z.
Proof. apply (service_string_is_the_port 8080). lia. Defined.

Lemma land_lor_lnot (f o : Z) :
  Z.land (Z.lor f o) (Z.lnot o) = Z.land f (Z.lnot o).
Proof.
  apply Z.bits_inj'. intros i Hi.
  rewrite !Z.land_spec, Z.lor_spec, Z.lnot_spec by exact Hi.
  destruct (Z.testbit f i), (Z.testbit o i); reflexivity.
Qed.

Lemma lor_land_lnot (f o : Z) :
  Z.lor (Z.land f (Z.lnot o)) o = Z.lor f o.
Proof.
  apply Z.bits_inj'. intros i Hi.
  rewrite !Z.lor_spec, Z.land_spec, Z.lnot_spec by exact Hi.
  destruct (Z.testbit f i), (Z.testbit o i); reflexivity.
Qed.

Lemma land_lnot_clear (f o : Z) :
  Z.land f o = 0%Z -> Z.land f (Z.lnot o) = f.
Proof.
  intros H. apply Z.bits_inj'. intros i Hi.
  rewrite Z.land_spec, Z.lnot_spec by exact Hi.
  assert (B : Z.testbit (Z.land f o) i = false) by (rewrite H; apply Z.bits_0).
  rewrite Z.land_spec in B.
  destruct (Z.testbit f i), (Z.testbit o i); try reflexivity; discriminate.
Qed.

Lemma lor_set (f o : Z) : Z.land f o = o -> Z.lor f o = f.
Proof.
  intros H. apply Z.bits_inj'. intros i Hi.
  rewrite Z.lor_spec.
  assert (B : Z.testbit (Z.land f o) i = Z.testbit o i) by (rewrite H; reflexivity).
  rewrite Z.land_spec in B.
  destruct (Z.testbit f i), (Z.testbit o i); try reflexivity; discriminate.
Qed.

Section ModeProps.

Context {W : Type} {D : Descriptors W}.
Variable O_NONBLOCK : Z.

Lemma socket_nonblocking_run (sock : Z) (s : proc W) :
  (0 <= sock)%Z ->
  socket_nonblocking O_NONBLOCK sock s =
  let (flags, w1) := fcntl_getfl sock (world s) in
  let (r, w2) := fcntl_setfl sock (Z.lor flags O_NONBLOCK) w1 in
  Done r (Proc w2 (logged s)).
Proof.
  intros H. apply Z.leb_le in H.
  unfold socket_nonblocking, mbind, assert, sys. rewrite H. simpl.
  destruct (fcntl_getfl sock (world s)) as [flags w1]. simpl.
  destruct (fcntl_setfl sock (Z.lor flags O_NONBLOCK) w1). reflexivity.
Qed.

Lemma socket_blocking_run (sock : Z) (s : proc W) :
  (0 <= sock)%Z ->
  socket_blocking O_NONBLOCK sock s =
  let (flags, w1) := fcntl_getfl sock (world s) in
  let (r, w2) := fcntl_setfl sock (Z.land flags (Z.lnot O_NONBLOCK)) w1 in
  Done r (Proc w2 (logged s)).
Proof.
  intros H. apply Z.leb_le in H.
  unfold socket_blocking, mbind, assert, sys. rewrite H. simpl.
  destruct (fcntl_getfl sock (world s)) as [flags w1]. simpl.
  destruct (fcntl_setfl sock (Z.land flags (Z.lnot O_NONBLOCK)) w1).
  reflexivity.
Qed.

End ModeProps.

(** X12: on a kernel that keeps the status flags of a descriptor (F_GETFL
    returns what F_SETFL stored), [socket_nonblocking] and [socket_blocking]
    both return 0 and undo each other: after [socket_nonblocking] the flags
    are the old ones with the bits of O_NONBLOCK set, after a following
    [socket_blocking] they are the old ones with those bits clear, which are
    the flags at the start when the descriptor was blocking then; the other
    bits are never changed. *)
Theorem blocking_mode_round_trip {W : Type} {D : Descriptors W}
    (O_NONBLOCK : Z) (flags_of : W -> Z -> Z) (sock : Z) (s : proc W) :
  (forall fd w, fcntl_getfl fd w = (flags_of w fd, w)) ->
  (forall fd v w,
     fst (fcntl_setfl fd v w) = 0%Z /\
     flags_of (snd (fcntl_setfl fd v w)) fd = v) ->
  (0 <= sock)%Z ->
  let f := flags_of (world s) sock in
  exists s1 s2 s3,
    socket_nonblocking O_NONBLOCK sock s = Done 0%Z s1 /\
    flags_of (world s1) sock = Z.lor f O_NONBLOCK /\
    socket_blocking O_NONBLOCK sock s1 = Done 0%Z s2 /\
    flags_of (world s2) sock = Z.land f (Z.lnot O_NONBLOCK) /\
    socket_nonblocking O_NONBLOCK sock s2 = Done 0%Z s3 /\
    flags_of (world s3) sock = Z.lor f O_NONBLOCK /\
    (Z.land f O_NONBLOCK = 0%Z -> flags_of (world s2) sock = f) /\
    (Z.land f O_NONBLOCK = O_NONBLOCK -> flags_of (world s1) sock = f).
Proof.
  intros Hget Hset Hs f.
  assert (N : forall s0 : proc W,
            exists s',
              socket_nonblocking O_NONBLOCK sock s0 = Done 0%Z s' /\
              flags_of (world s') sock =
              Z.lor (flags_of (world s0) sock) O_NONBLOCK).
  { intros s0. rewrite (socket_nonblocking_run O_NONBLOCK sock s0 Hs), Hget.
    destruct (Hset sock (Z.lor (flags_of (world s0) sock) O_NONBLOCK)
                (world s0)) as [H1 H2].
    destruct (fcntl_setfl sock _ (world s0)) as [r w2]. simpl in H1, H2.
    subst r. eexists. split; [reflexivity | exact H2]. }
  assert (B : forall s0 : proc W,
            exists s',
              socket_blocking O_NONBLOCK sock s0 = Done 0%Z s' /\
              flags_of (world s') sock =
              Z.land (flags_of (world s0) sock) (Z.lnot O_NONBLOCK)).
  { intros s0. rewrite (socket_blocking_run O_NONBLOCK sock s0 Hs), Hget.
    destruct (Hset sock (Z.land (flags_of (world s0) sock) (Z.lnot O_NONBLOCK))
                (world s0)) as [H1 H2].
    destruct (fcntl_setfl sock _ (world s0)) as [r w2]. simpl in H1, H2.
    subst r. eexists. split; [reflexivity | exact H2]. }
  destruct (N s) as [s1 [E1 F1]].
  destruct (B s1) as [s2 [E2 F2]].
  destruct (N s2) as [s3 [E3 F3]].
  rewrite F1, land_lor_lnot in F2. rewrite F2, lor_land_lnot in F3.
  exists s1, s2, s3. fold f in F1, F2, F3.
  repeat split; auto.
  - intros H. rewrite F2. apply land_lnot_clear. exact H.
  - intros H. rewrite F1. apply lor_set. exact H.
Qed.

Lemma blocking_mode_round_trip_witness :
  let f := flags_in (world flag_proc) 5 in
  exists s1 s2 s3,
    @socket_nonblocking _ flag_descriptors 2048 5 flag_proc = Done 0%Z s1 /\
    flags_in (world s1) 5 = Z.lor f 2048 /\
    @socket_blocking _ flag_descriptors 2048 5 s1 = Done 0%Z s2 /\
    flags_in (world s2) 5 = Z.land f (Z.lnot 2048) /\
    @socket_nonblocking _ flag_descriptors 2048 5 s2 = Done 0%Z s3 /\
    flags_in (world s3) 5 = Z.lor f 2048 /\
    (Z.land f 2048 = 0%Z -> flags_in (world s2) 5 = f) /\
    (Z.land f 2048 = 2048%Z -> flags_in (world s1) 5 = f).
Proof.
  apply (@blocking_mode_round_trip _ flag_descriptors 2048 flags_in 5 flag_proc).
  - intros fd w. reflexivity.
  - intros fd v w. split; [reflexivity|].
    unfold flags_in. simpl. rewrite Z.eqb_refl. reflexivity.
  - lia.
Defined.

(** X13: the result of F_GETFL is not tested.  When it fails with -1,
    [socket_nonblocking] goes on to F_SETFL with -1, every flag bit set, and
    [socket_blocking] with every bit but those of O_NONBLOCK; the return
    value is that of F_SETFL. *)
Theorem failed_getfl_is_written_back {W : Type} {D : Descriptors W}
    (O_NONBLOCK : Z) (sock : Z) (s : proc W) (w1 : W) :
  (0 <= sock)%Z ->
  fcntl_getfl sock (world s) = ((-1)%Z, w1) ->
  socket_nonblocking O_NONBLOCK sock s =
    Done (fst (fcntl_setfl sock (-1) w1))
      (Proc (snd (fcntl_setfl sock (-1) w1)) (logged s)) /\
  socket_blocking O_NONBLOCK sock s =
    Done (fst (fcntl_setfl sock (Z.lnot O_NONBLOCK) w1))
      (Proc (snd (fcntl_setfl sock (Z.lnot O_NONBLOCK) w1)) (logged s)).
Proof.
  intros Hs Hg. split.
  - rewrite (socket_nonblocking_run O_NONBLOCK sock s Hs), Hg.
    rewrite Z.lor_m1_l. change (- (1))%Z with (-1)%Z.
    destruct (fcntl_setfl sock (-1) w1). reflexivity.
  - rewrite (socket_blocking_run O_NONBLOCK sock s Hs), Hg.
    rewrite Z.land_m1_l.
    destruct (fcntl_setfl sock (Z.lnot O_NONBLOCK) w1). reflexivity.
Qed.

Lemma failed_getfl_is_written_back_witness :
  @socket_nonblocking _ flag_descriptors 2048 9
    (Proc (FlagWorld [(9%Z, (-1)%Z)] 3 []) []) =
    Done (fst (@fcntl_setfl _ flag_descriptors 9 (-1)
                 (FlagWorld [(9%Z, (-1)%Z)] 3 [])))
      (Proc (snd (@fcntl_setfl _ flag_descriptors 9 (-1)
                    (FlagWorld [(9%Z, (-1)%Z)] 3 []))) []) /\
  @socket_blocking _ flag_descriptors 2048 9
    (Proc (FlagWorld [(9%Z, (-1)%Z)] 3 []) []) =
    Done (fst (@fcntl_setfl _ flag_descriptors 9 (Z.lnot 2048)
                 (FlagWorld [(9%Z, (-1)%Z)] 3 [])))
      (Proc (snd (@fcntl_setfl _ flag_descriptors 9 (Z.lnot 2048)
                    (FlagWorld [(9%Z, (-1)%Z)] 3 []))) []).
Proof.
  apply (@failed_getfl_is_written_back _ flag_descriptors 2048 9
           (Proc (FlagWorld [(9%Z, (-1)%Z)] 3 []) [])
           (FlagWorld [(9%Z, (-1)%Z)] 3 [])).
  - lia.
  - reflexivity.
Defined.

(** X14: [listen_sock] returns a descriptor (a value that is not negative)
    exactly when [socket], [bind] and [listen] all succeeded, although the
    result of [socket] is never tested; only then is the address length
    stored.  When [bind] fails it returns -1 after one error entry, without
    calling [listen] and without closing the socket; when [listen] fails it
    returns -1 after one error entry. *)
Theorem listen_sock_result {W : Type} {K : Kernel W} {D : Descriptors W}
    (MAXLISTEN sizeof_sockaddr_in : Z) (ipAddr : option string) (port : Z)
    (s : proc W) :
  (0 < port)%Z ->
  let addr :=
    sockaddr_in AF_INET (htons port)
      (inet_addr (match ipAddr with Some a => a | None => "0.0.0.0" end)) in
  let (listenfd, w1) := socket AF_INET SOCK_STREAM 0 (world s) in
  let (_, w2) := setsockopt_reuseaddr listenfd w1 in
  let (b, w3) := bind listenfd addr w2 in
  let (r, w4) := listen listenfd MAXLISTEN w3 in
  exists rv len s',
    listen_sock MAXLISTEN sizeof_sockaddr_in ipAddr port s = Done (rv, len) s' /\
    ((0 <= rv)%Z <-> (0 <= listenfd)%Z /\ (0 <= b)%Z /\ (0 <= r)%Z) /\
    (len <> None <-> (0 <= b)%Z /\ (0 <= r)%Z) /\
    ((0 <= b)%Z -> (0 <= r)%Z ->
     rv = listenfd /\ len = Some sizeof_sockaddr_in /\
     s' = Proc w4 (logged s)) /\
    ((b < 0)%Z ->
     rv = (-1)%Z /\
     s' = Proc w3
            (log_message LOG_ERR
               "Unable to bind listening socket because of %s"
               [Some (strerror_errno w3)] (logged s))) /\
    ((0 <= b)%Z -> (r < 0)%Z ->
     rv = (-1)%Z /\
     s' = Proc w4
            (log_message LOG_ERR
               "Unable to start listening socket because of %s"
               [Some (strerror_errno w4)] (logged s))).
Proof.
  intros Hport addr.
  destruct (socket AF_INET SOCK_STREAM 0 (world s)) as [listenfd w1] eqn:Es.
  destruct (setsockopt_reuseaddr listenfd w1) as [o w2] eqn:Eo.
  destruct (bind listenfd addr w2) as [b w3] eqn:Eb.
  destruct (listen listenfd MAXLISTEN w3) as [r w4] eqn:El.
  unfold listen_sock.
  assert (A : assert (0 <? port)%Z s = Done tt s).
  { unfold assert. apply Z.ltb_lt in Hport. rewrite Hport. reflexivity. }
  unfold mbind at 1. rewrite A.
  unfold mbind at 1. unfold sys at 1. rewrite Es.
  unfold mbind at 1. unfold sys at 1. simpl world. rewrite Eo.
  unfold mbind at 1. unfold sys at 1. simpl world. fold addr. rewrite Eb.
  destruct (b <? 0)%Z eqn:Hb.
  - apply Z.ltb_lt in Hb.
    eexists _, _, _. split; [reflexivity|]. simpl.
    repeat split; try lia; try congruence; intros; try lia.
  - apply Z.ltb_ge in Hb.
    unfold mbind at 1. unfold sys at 1. simpl world. rewrite El.
    destruct (r <? 0)%Z eqn:Hr.
    + apply Z.ltb_lt in Hr.
      eexists _, _, _. split; [reflexivity|]. simpl.
      repeat split; try lia; try congruence; intros; try lia.
    + apply Z.ltb_ge in Hr.
      eexists _, _, _. split; [reflexivity|]. simpl.
      repeat split; try lia; try congruence; intros; try lia.
Qed.

Lemma listen_sock_result_witness :
  let addr :=
    @sockaddr_in _ flag_descriptors AF_INET (@htons _ flag_descriptors 8888)
      (@inet_addr _ flag_descriptors "0.0.0.0") in
  let (listenfd, w1) :=
    @socket _ flag_kernel AF_INET SOCK_STREAM 0 (world flag_proc) in
  let (_, w2) := @setsockopt_reuseaddr _ flag_descriptors listenfd w1 in
  let (b, w3) := @bind _ flag_kernel listenfd addr w2 in
  let (r, w4) := @listen _ flag_descriptors listenfd 1024 w3 in
  exists rv len s',
    @listen_sock _ flag_kernel flag_descriptors 1024 16 None 8888 flag_proc =
      Done (rv, len) s' /\
    ((0 <= rv)%Z <-> (0 <= listenfd)%Z /\ (0 <= b)%Z /\ (0 <= r)%Z) /\
    (len <> None <-> (0 <= b)%Z /\ (0 <= r)%Z) /\
    ((0 <= b)%Z -> (0 <= r)%Z ->
     rv = listenfd /\ len = Some 16%Z /\ s' = Proc w4 (logged flag_proc)) /\
    ((b < 0)%Z ->
     rv = (-1)%Z /\
     s' = Proc w3
            (log_message LOG_ERR
               "Unable to bind listening socket because of %s"
               [Some (@strerror_errno _ flag_descriptors w3)]
               (logged flag_proc))) /\
    ((0 <= b)%Z -> (r < 0)%Z ->
     rv = (-1)%Z /\
     s' = Proc w4
            (log_message LOG_ERR
               "Unable to start listening socket because of %s"
               [Some (@strerror_errno _ flag_descriptors w4)]
               (logged flag_proc))).
Proof.
  apply (@listen_sock_result _ flag_kernel flag_descriptors 1024 16 None 8888
           flag_proc).
  lia.
Defined.

(** ** Descriptors opened and closed *)

Lemma open_descriptors_snoc (t : list event) (e : event) :
  open_descriptors (t ++ [e]) = account (open_descriptors t) e.
Proof. unfold open_descriptors. rewrite fold_left_app. reflexivity. Qed.

Lemma remove_one_head (fd : Z) (l : list Z) : remove_one fd (fd :: l) = l.
Proof. simpl. rewrite Z.eqb_refl. reflexivity. Qed.

Section TraceProps.

Context {W : Type} (K : Kernel W).

Lemma bind_socket_loop_traced (sockfd : Z) (ai_next : list addrinfo) :
  forall (res : addrinfo) (s s' : proc (W * list event)) (r : option addrinfo),
    @bind_socket_loop _ (traced K) sockfd res ai_next s = Done r s' ->
    open_descriptors (snd (world s')) = open_descriptors (snd (world s)).
Proof.
  induction ai_next as [|res' ai_next IH]; intros res s s' r; simpl;
    unfold mbind, sys, ret; simpl;
    destruct (bind sockfd (ai_addr res) (fst (world s))) as [rc w];
    destruct (rc =? 0)%Z; intros H; try (injection H as _ <-; simpl;
      rewrite open_descriptors_snoc; reflexivity).
  apply IH in H. rewrite H. simpl. rewrite open_descriptors_snoc. reflexivity.
Qed.

(** [bind_socket] opens and closes nothing. *)
Lemma bind_socket_traced (sockfd : Z) (addr : string)
    (s s' : proc (W * list event)) (r : Z) :
  @bind_socket _ (traced K) sockfd addr s = Done r s' ->
  open_descriptors (snd (world s')) = open_descriptors (snd (world s)).
Proof.
  unfold bind_socket, mbind, assert, sys, ret.
  destruct (0 <=? sockfd)%Z; [|discriminate].
  destruct (negb (String.length addr =? 0)%nat); [|discriminate].
  simpl.
  destruct (getaddrinfo addr None stream_hints (fst (world s)))
    as [[[res ai_next]|] w].
  - destruct (@bind_socket_loop _ (traced K) sockfd res ai_next _)
      as [r' s1|] eqn:E; [|discriminate].
    apply bind_socket_loop_traced in E. simpl in E.
    rewrite open_descriptors_snoc in E. simpl in E.
    destruct r'; intros H; injection H as _ <-; exact E.
  - intros H. injection H as _ <-. simpl.
    rewrite open_descriptors_snoc. reflexivity.
Qed.

Lemma bound_traced (b : option string) (fd : Z)
    (s s' : proc (W * list event)) :
  @bound _ (traced K) b fd s s' ->
  open_descriptors (snd (world s')) = open_descriptors (snd (world s)).
Proof.
  unfold bound. destruct b as [addr|].
  - intros [r [E _]]. eapply bind_socket_traced. exact E.
  - intros ->. reflexivity.
Qed.

(** An attempt leaves open the descriptor it connected, and nothing else it
    opened. *)
Lemma attempt_traced (b : option string) (c : addrinfo)
    (s s' : proc (W * list event)) (r : option Z) :
  @attempt _ (traced K) b c s s' r ->
  open_descriptors (snd (world s')) =
  match r with
  | Some fd => fd :: open_descriptors (snd (world s))
  | None => open_descriptors (snd (world s))
  end.
Proof.
  intros H. destruct H as
    [s fd w Es Hfd
    | s fd w addr r s1 rc w2 Es Hfd Hb Eb Hr Ec
    | s fd w s1 rc w2 rc' w3 Es Hfd Hb Ec Hrc Ecl
    | s fd w s1 w2 Es Hfd Hb Ec];
    simpl in Es;
    destruct (socket (ai_family c) (ai_socktype c) (ai_protocol c)
                (fst (world s))) as [fd0 w0];
    injection Es as -> <-.
  - simpl. rewrite open_descriptors_snoc. simpl.
    apply Z.ltb_lt in Hfd. rewrite Z.leb_antisym, Hfd. reflexivity.
  - apply bind_socket_traced in Eb. simpl in Eb.
    rewrite open_descriptors_snoc in Eb. simpl in Eb.
    apply Z.leb_le in Hfd. rewrite Hfd in Eb.
    simpl in Ec. destruct (close fd (fst (world s1))) as [rc0 w4].
    injection Ec as _ <-. simpl.
    rewrite open_descriptors_snoc, Eb. simpl. apply remove_one_head.
  - apply bound_traced in Hb. simpl in Hb.
    rewrite open_descriptors_snoc in Hb. simpl in Hb.
    apply Z.leb_le in Hfd. rewrite Hfd in Hb.
    simpl in Ec. destruct (connect fd (ai_addr c) (fst (world s1))) as [rc0 w4].
    injection Ec as _ <-.
    simpl in Ecl. destruct (close fd w4) as [rc1 w5].
    injection Ecl as _ <-. simpl.
    rewrite !open_descriptors_snoc, Hb. simpl. apply remove_one_head.
  - apply bound_traced in Hb. simpl in Hb.
    rewrite open_descriptors_snoc in Hb. simpl in Hb.
    apply Z.leb_le in Hfd. rewrite Hfd in Hb.
    simpl in Ec. destruct (connect fd (ai_addr c) (fst (world s1))) as [rc0 w4].
    injection Ec as _ <-. simpl.
    rewrite open_descriptors_snoc, Hb. reflexivity.
Qed.

Lemma first_connected_traced (b : option string) (cs : list addrinfo)
    (s s' : proc (W * list event)) (r : option (addrinfo * Z)) :
  @first_connected _ (traced K) b cs s s' r ->
  open_descriptors (snd (world s')) =
  match r with
  | Some (_, fd) => fd :: open_descriptors (snd (world s))
  | None => open_descriptors (snd (world s))
  end.
Proof.
  intros H. induction H as [s | c cs s s1 s2 r Ha Hrest IH | c cs s s1 fd Ha].
  - reflexivity.
  - apply attempt_traced in Ha. rewrite IH, Ha. reflexivity.
  - apply attempt_traced in Ha. exact Ha.
Qed.

End TraceProps.

Lemma getaddrinfo_traced {W : Type} (K : Kernel W) (node : string)
    (service : option string) (hints : addrinfo) (wt wt' : W * list event)
    (r : option (addrinfo * list addrinfo)) :
  @getaddrinfo _ (traced K) node service hints wt = (r, wt') ->
  open_descriptors (snd wt') = open_descriptors (snd wt).
Proof.
  simpl. destruct (getaddrinfo node service hints (fst wt)) as [r0 w].
  intros H. injection H as _ <-. simpl.
  rewrite open_descriptors_snoc. reflexivity.
Qed.

(** X15: [opensock] leaves no descriptor behind.  On any kernel, run with a
    trace of its calls, a call with a positive port (and a bind address that
    is not empty) returns -1 or a descriptor; the descriptors open at the
    end are those open at the start and the descriptor returned: every
    socket made for a candidate that failed to bind or to connect has been
    closed. *)
Theorem opensock_leaves_no_descriptor_open {W : Type} (K : Kernel W)
    (config : config_s) (host : string) (port : Z) (bind_to : option string)
    (s : proc (W * list event)) :
  (0 < port)%Z ->
  (forall addr, chosen_bind config bind_to = Some addr -> addr <> "") ->
  exists r s',
    @opensock _ (traced K) config host port bind_to s = Done r s' /\
    (r = (-1)%Z \/ (0 <= r)%Z) /\
    open_descriptors (snd (world s')) =
    (if (0 <=? r)%Z then r :: open_descriptors (snd (world s))
     else open_descriptors (snd (world s))).
Proof.
  intros Hport Hb. unfold opensock.
  assert (A : assert (0 <? port)%Z s = Done tt s).
  { unfold assert. apply Z.ltb_lt in Hport. rewrite Hport. reflexivity. }
  rewrite (mbind_done _ _ _ _ _ A).
  destruct (@getaddrinfo _ (traced K) host (Some (portstr port)) stream_hints
              (world s)) as [[[c cs]|] wt] eqn:Eg;
    rewrite (mbind_done _ _ _ _ _ (sys_done _ _ _ _ Eg));
    apply getaddrinfo_traced in Eg.
  - destruct (@opensock_loop_first _ (traced K) config bind_to Hb cs c
                (Proc wt (logged s)))
      as [s' [r [fd [Hfc [Eloop [Hfd L]]]]]].
    rewrite (mbind_done _ _ _ _ _ Eloop).
    apply first_connected_traced in Hfc. simpl in Hfc. rewrite Eg in Hfc.
    destruct r as [[c' fd']|]; simpl.
    + destruct (Hfd c' fd' eq_refl) as [<- Hpos].
      exists fd, s'. split; [reflexivity|]. split; [auto|].
      apply Z.leb_le in Hpos. rewrite Hpos. exact Hfc.
    + unfold mbind, log_msg, ret. eexists _, _. split; [reflexivity|].
      split; [auto|]. simpl. exact Hfc.
  - unfold mbind, log_msg, ret. eexists _, _. split; [reflexivity|].
    split; [auto|]. simpl. exact Eg.
Qed.

Lemma opensock_leaves_no_descriptor_open_witness :
  exists r s',
    @opensock _ (traced sim_kernel) plain_config "backend" 80
      (Some "192.168.0.9") (Proc (demo_world, []) []) = Done r s' /\
    (r = (-1)%Z \/ (0 <= r)%Z) /\
    open_descriptors (snd (world s')) =
    (if (0 <=? r)%Z
     then r :: open_descriptors (snd (world (Proc (demo_world, []) [])))
     else open_descriptors (snd (world (Proc (demo_world, @nil event) [])))).
Proof.
  apply (opensock_leaves_no_descriptor_open sim_kernel plain_config "backend"
           80 (Some "192.168.0.9") (Proc (demo_world, []) [])).
  - lia.
  - intros addr H. injection H as <-. discriminate.
Defined.

(** The run of the witness: the first socket is bound, fails to connect and
    is closed; the second is bound and connected. *)
Example traced_run_example :
  exists w lg,
    @opensock _ (traced sim_kernel) plain_config "backend" 80
      (Some "192.168.0.9") (Proc (demo_world, []) []) =
    Done 4%Z
      (Proc (w, [EvGetaddrinfo "backend" true;
                 EvSocket 3; EvGetaddrinfo "192.168.0.9" true;
                 EvBind 3 "192.168.0.9" 0; EvConnect 3 "10.0.0.1" (-1);
                 EvClose 3;
                 EvSocket 4; EvGetaddrinfo "192.168.0.9" true;
                 EvBind 4 "192.168.0.9" 0; EvConnect 4 "10.0.0.2" 0]) lg).
Proof. eexists _, _. vm_compute. reflexivity. Qed.

Section BindProps.

Context {W : Type} (K : Kernel W).

Lemma bind_socket_loop_calls (sockfd : Z) (ai_next : list addrinfo) :
  forall (res : addrinfo) (s : proc (W * list event)),
  exists ro s' calls,
    @bind_socket_loop _ (traced K) sockfd res ai_next s = Done ro s' /\
    logged s' = logged s /\
    snd (world s') = snd (world s) ++ bind_events sockfd calls /\
    (exists rest, map fst calls ++ rest = map ai_addr (res :: ai_next)) /\
    ((ro <> None /\
      exists pre a, calls = pre ++ [(a, 0%Z)] /\ Forall failed_call pre) \/
     (ro = None /\ Forall failed_call calls /\
      map fst calls = map ai_addr (res :: ai_next))).
Proof.
  induction ai_next as [|res' ai_next IH]; intros res s; simpl;
    unfold mbind, sys, ret; simpl;
    destruct (bind sockfd (ai_addr res) (fst (world s))) as [rc w];
    destruct (rc =? 0)%Z eqn:Erc.
  - apply Z.eqb_eq in Erc. subst rc.
    exists (Some res), (Proc (w, snd (world s) ++ [EvBind sockfd (ai_addr res) 0])
                          (logged s)), [(ai_addr res, 0%Z)].
    split; [reflexivity|]. split; [reflexivity|]. split; [reflexivity|].
    split; [eexists; simpl; reflexivity|].
    left. split; [discriminate|]. exists [], (ai_addr res). auto.
  - apply Z.eqb_neq in Erc.
    exists None, (Proc (w, snd (world s) ++ [EvBind sockfd (ai_addr res) rc])
                    (logged s)), [(ai_addr res, rc)].
    split; [reflexivity|]. split; [reflexivity|]. split; [reflexivity|].
    split; [exists []; reflexivity|].
    right. split; [reflexivity|]. split; [|reflexivity].
    constructor; [exact Erc | constructor].
  - apply Z.eqb_eq in Erc. subst rc.
    exists (Some res), (Proc (w, snd (world s) ++ [EvBind sockfd (ai_addr res) 0])
                          (logged s)), [(ai_addr res, 0%Z)].
    split; [reflexivity|]. split; [reflexivity|]. split; [reflexivity|].
    split; [eexists; simpl; reflexivity|].
    left. split; [discriminate|]. exists [], (ai_addr res). auto.
  - apply Z.eqb_neq in Erc.
    destruct (IH res' (Proc (w, snd (world s) ++ [EvBind sockfd (ai_addr res) rc])
                         (logged s)))
      as [ro [s' [calls [E [L [T [[rest P] R]]]]]]].
    exists ro, s', ((ai_addr res, rc) :: calls).
    split; [exact E|]. split; [exact L|].
    split; [rewrite T; simpl; rewrite <- app_assoc; reflexivity|].
    split; [exists rest; simpl; simpl in P; rewrite P; reflexivity|].
    destruct R as [[Hro [pre [a [-> Hpre]]]] | [-> [Hall Hmap]]].
    + left. split; [exact Hro|]. exists ((ai_addr res, rc) :: pre), a.
      split; [reflexivity|]. constructor; [exact Erc | exact Hpre].
    + right. split; [reflexivity|].
      split; [constructor; [exact Erc | exact Hall]|].
      simpl. simpl in Hmap. rewrite Hmap. reflexivity.
Qed.

End BindProps.

(** X16: [bind_socket], given a descriptor and an address that is not empty,
    makes one resolution and then only [bind] calls on that descriptor, on
    the resolved addresses in their order; it returns the descriptor when a
    call returns 0, which is then the last call, and -1 when the resolution
    failed or every address was tried in vain.  It logs nothing, and opens
    and closes nothing. *)
Theorem bind_socket_binds_in_order {W : Type} (K : Kernel W)
    (sockfd : Z) (addr : string) (s : proc (W * list event)) :
  (0 <= sockfd)%Z -> addr <> "" ->
  let resolved := fst (getaddrinfo addr None stream_hints (fst (world s))) in
  let addresses :=
    match resolved with
    | Some (res, ai_next) => map ai_addr (res :: ai_next)
    | None => []
    end in
  exists r s' calls,
    @bind_socket _ (traced K) sockfd addr s = Done r s' /\
    logged s' = logged s /\
    snd (world s') =
      snd (world s)
      ++ EvGetaddrinfo addr (negb (is_null resolved))
      :: bind_events sockfd calls /\
    (exists rest, map fst calls ++ rest = addresses) /\
    ((r = sockfd /\
      exists pre a, calls = pre ++ [(a, 0%Z)] /\ Forall failed_call pre) \/
     (r = (-1)%Z /\ Forall failed_call calls /\ map fst calls = addresses)).
Proof.
  intros Hfd Haddr. cbv zeta.
  unfold bind_socket, mbind, assert, sys, ret.
  apply Z.leb_le in Hfd. rewrite Hfd.
  destruct addr as [|ch addr]; [contradiction|]. simpl negb. cbv iota.
  simpl getaddrinfo.
  destruct (getaddrinfo (String ch addr) None stream_hints (fst (world s)))
    as [[[res ai_next]|] w]; simpl.
  - destruct (bind_socket_loop_calls K sockfd ai_next res
                (Proc (w, snd (world s) ++ [EvGetaddrinfo (String ch addr) true])
                   (logged s)))
      as [ro [s' [calls [E [L [T [P R]]]]]]].
    rewrite E. simpl in T, L.
    destruct R as [[Hro R] | [-> R]].
    + destruct ro as [x|]; [|contradiction].
      exists sockfd, s', calls. split; [reflexivity|]. split; [exact L|].
      split; [rewrite T, <- app_assoc; reflexivity|].
      split; [exact P | left; auto].
    + exists (-1)%Z, s', calls. split; [reflexivity|]. split; [exact L|].
      split; [rewrite T, <- app_assoc; reflexivity|].
      split; [exact P | right; auto].
  - eexists (-1)%Z, _, []. split; [reflexivity|]. simpl.
    split; [reflexivity|]. split; [reflexivity|].
    split; [exists []; reflexivity|].
    right. split; [reflexivity|]. split; [constructor | reflexivity].
Qed.

Lemma bind_socket_binds_in_order_witness :
  let resolved :=
    fst (@getaddrinfo _ sim_kernel "192.168.0.9" None stream_hints
           (fst (world (Proc (demo_world, @nil event) [])))) in
  let addresses :=
    match resolved with
    | Some (res, ai_next) => map ai_addr (res :: ai_next)
    | None => []
    end in
  exists r s' calls,
    @bind_socket _ (traced sim_kernel) 3 "192.168.0.9"
      (Proc (demo_world, []) []) = Done r s' /\
    logged s' = logged (Proc (demo_world, @nil event) []) /\
    snd (world s') =
      snd (world (Proc (demo_world, @nil event) []))
      ++ EvGetaddrinfo "192.168.0.9" (negb (is_null resolved))
      :: bind_events 3 calls /\
    (exists rest, map fst calls ++ rest = addresses) /\
    ((r = 3%Z /\
      exists pre a, calls = pre ++ [(a, 0%Z)] /\ Forall failed_call pre) \/
     (r = (-1)%Z /\ Forall failed_call calls /\ map fst calls = addresses)).
Proof.
  apply (bind_socket_binds_in_order sim_kernel 3 "192.168.0.9"
           (Proc (demo_world, []) [])).
  - lia.
  - discriminate.
Defined.

(** X17: [listen_sock] never closes the socket it makes.  On any kernel, run
    with a trace, its socket and address calls are one [socket] and one
    [bind] on the descriptor [socket] returned, and nothing else; it returns
    that descriptor or -1, and in both cases the descriptor is left open:
    after a failed [bind] or [listen] the caller gets -1 and no way to close
    it. *)
Theorem listen_sock_never_closes {W : Type} (K : Kernel W) (D : Descriptors W)
    (MAXLISTEN sizeof_sockaddr_in : Z) (ipAddr : option string) (port : Z)
    (s : proc (W * list event)) :
  (0 < port)%Z ->
  let addr :=
    sockaddr_in AF_INET (htons port)
      (inet_addr (match ipAddr with Some a => a | None => "0.0.0.0" end)) in
  exists rv len s' listenfd b,
    @listen_sock _ (traced K) (traced_descriptors D) MAXLISTEN
      sizeof_sockaddr_in ipAddr port s = Done (rv, len) s' /\
    snd (world s') =
      snd (world s) ++ [EvSocket listenfd; EvBind listenfd addr b] /\
    (rv = listenfd \/ rv = (-1)%Z) /\
    open_descriptors (snd (world s')) =
    (if (0 <=? listenfd)%Z
     then listenfd :: open_descriptors (snd (world s))
     else open_descriptors (snd (world s))).
Proof.
  intros Hport addr.
  unfold listen_sock, mbind, assert, sys, log_msg, ret.
  apply Z.ltb_lt in Hport. rewrite Hport. simpl.
  destruct (socket AF_INET SOCK_STREAM 0 (fst (world s))) as [listenfd w1].
  simpl.
  destruct (setsockopt_reuseaddr listenfd w1) as [o w2]. simpl.
  fold addr.
  destruct (bind listenfd addr w2) as [b w3]. simpl.
  assert (T : open_descriptors
                ((snd (world s) ++ [EvSocket listenfd])
                 ++ [EvBind listenfd addr b]) =
              (if (0 <=? listenfd)%Z
               then listenfd :: open_descriptors (snd (world s))
               else open_descriptors (snd (world s)))).
  { rewrite !open_descriptors_snoc. reflexivity. }
  destruct (b <? 0)%Z.
  - simpl. eexists _, _, _, listenfd, b. split; [reflexivity|]. simpl.
    split; [rewrite <- app_assoc; reflexivity|]. split; [auto | exact T].
  - simpl. destruct (listen listenfd MAXLISTEN w3) as [r w4]. simpl.
    destruct (r <? 0)%Z; simpl;
      eexists _, _, _, listenfd, b; (split; [reflexivity|]); simpl;
      (split; [rewrite <- app_assoc; reflexivity|]); (split; [auto | exact T]).
Qed.

Lemma listen_sock_never_closes_witness :
  let addr :=
    @sockaddr_in _ flag_descriptors AF_INET (@htons _ flag_descriptors 8888)
      (@inet_addr _ flag_descriptors "0.0.0.0") in
  exists rv len s' listenfd b,
    @listen_sock _ (traced flag_kernel) (traced_descriptors flag_descriptors)
      1024 16 None 8888
      (Proc (FlagWorld [] 3 ["0.0.0.0"], []) []) = Done (rv, len) s' /\
    snd (world s') =
      snd (world (Proc (FlagWorld [] 3 ["0.0.0.0"], @nil event) []))
      ++ [EvSocket listenfd; EvBind listenfd addr b] /\
    (rv = listenfd \/ rv = (-1)%Z) /\
    open_descriptors (snd (world s')) =
    (if (0 <=? listenfd)%Z
     then listenfd
          :: open_descriptors
               (snd (world (Proc (FlagWorld [] 3 ["0.0.0.0"], @nil event) [])))
     else open_descriptors
            (snd (world (Proc (FlagWorld [] 3 ["0.0.0.0"], @nil event) [])))).
Proof.
  apply (listen_sock_never_closes flag_kernel flag_descriptors 1024 16 None
           8888 (Proc (FlagWorld [] 3 ["0.0.0.0"], []) [])).
  lia.
Defined.

(** The run of the witness: the address is taken, [bind] fails, -1 is
    returned after one error entry, and descriptor 3 stays open. *)
Example address_in_use_example :
  exists w,
    @listen_sock _ (traced flag_kernel) (traced_descriptors flag_descriptors)
      1024 16 None 8888 (Proc (FlagWorld [] 3 ["0.0.0.0"], []) []) =
    Done ((-1)%Z, None)
      (Proc (w, [EvSocket 3; EvBind 3 "0.0.0.0" (-1)])
         [LogEntry LOG_ERR "Unable to bind listening socket because of %s"
            [Some "Address already in use"]]) /\
    open_descriptors [EvSocket 3; EvBind 3 "0.0.0.0" (-1)] = [3%Z].
Proof. eexists. split; vm_compute; reflexivity. Qed.
